(** * AudioReader of the nabu media player (esphome/components/nabu/audio_reader.cpp)

    A shallow embedding of the pull-based audio byte-stream reader: the two
    [start] overloads, the step operation [read] with its memory path
    [file_read_] and its network path [http_read_], and [cleanup_connection_].

    The reader talks to three collaborators that live outside the component:
    the ESP-IDF HTTP client, the consumer ring buffer and the RAM allocator.
    Their answers are inputs of the model (records [StartEnv] and [StepEnv]);
    every call that crosses the boundary is appended to a trace of [event]s,
    so that statements such as "the session is released exactly once" or
    "no read is requested" are statements about that trace. *)

From Stdlib Require Import ZArith List String Bool Lia.
From Stdlib Require Strings.Byte.
Import ListNotations.
Local Open Scope Z_scope.

(** ** Machine integers of the ESP32 target (ILP32) *)

Definition byte : Type := Byte.byte.

(** [size_t] is an unsigned 32-bit integer: arithmetic wraps modulo 2^32. *)
Definition size_t_wrap (z : Z) : Z := z mod 2 ^ 32.

(** [int] is a signed 32-bit integer; the model wraps in two's complement. *)
Definition int_wrap (z : Z) : Z := (z + 2 ^ 31) mod 2 ^ 32 - 2 ^ 31.

(** ** esp_err_t: the ESP-IDF error codes that the reader returns *)

Definition esp_err_t : Type := Z.
Definition ESP_OK : esp_err_t := 0.
Definition ESP_FAIL : esp_err_t := -1.
Definition ESP_ERR_NO_MEM : esp_err_t := 257.
Definition ESP_ERR_INVALID_ARG : esp_err_t := 258.
Definition ESP_ERR_NOT_SUPPORTED : esp_err_t := 262.

(** ** media_player::MediaFileType and media_player::MediaFile *)

Module media_player.

Inductive MediaFileType : Type := NONE | WAV | MP3 | FLAC.

(** The caller-owned memory descriptor: a byte view, its length and its
    declared type.  [data] is the memory that the pointer designates. *)
Record MediaFile : Type := {
  data : list byte;
  length : Z;
  file_type : MediaFileType
}.

(** A well-formed descriptor announces the length of its own view. *)
Definition well_formed (f : MediaFile) : Prop :=
  length f = Z.of_nat (List.length (data f)) /\ length f < 2 ^ 32.

End media_player.

Inductive AudioReaderState : Type := READING | FINISHED | FAILED.

(** ** The consumer ring buffer *)

Module RingBuffer.

(** Modelled from the spec: esphome/core/ring_buffer.h is not part of this
    component.  The buffer has a fixed capacity, reports its free space, and
    its bounded-wait write stores as many bytes as fit without overwriting
    unread data and returns the count actually written. *)
Record t : Type := {
  capacity : Z;
  unread : list byte
}.

Definition free (rb : t) : Z := capacity rb - Z.of_nat (List.length (unread rb)).

(** The concurrent consumer task takes [n] bytes out of the buffer. *)
Definition consume (n : nat) (rb : t) : t :=
  {| capacity := capacity rb; unread := skipn n (unread rb) |}.

(** The bytes that a write of [len] bytes starting at [src] stores. *)
Definition accepted (rb : t) (src : list byte) (len : Z) : list byte :=
  firstn (Z.to_nat (Z.min len (free rb))) src.

Definition write_without_replacement (rb : t) (src : list byte) (len : Z)
  : Z * t :=
  let bytes := accepted rb src len in
  (Z.of_nat (List.length bytes),
   {| capacity := capacity rb; unread := unread rb ++ bytes |}).

End RingBuffer.

(** ** The HTTP client session *)

(** A session handle is a nullable pointer: [None] is [nullptr]. *)
Definition esp_http_client_handle_t : Type := option positive.

Record esp_http_client_config_t : Type := {
  url : string;
  cert_pem : option string;
  disable_auto_redirect : bool;
  max_redirection_count : Z;
  buffer_size : Z;
  keep_alive_enable : bool;
  timeout_ms : Z;
  crt_bundle_attach : bool
}.

(** Build-time switch of the firmware; no statement depends on its value. *)
Definition CONFIG_MBEDTLS_CERTIFICATE_BUNDLE : bool := true.

(** ** Calls that cross the component boundary *)

Inductive event : Type :=
| EvAllocate (n : Z)
| EvHttpInit (config : esp_http_client_config_t)
| EvHttpOpen (h : esp_http_client_handle_t)
| EvHttpFetchHeaders (h : esp_http_client_handle_t)
| EvHttpGetUrl (h : esp_http_client_handle_t)
| EvHttpSetTimeout (h : esp_http_client_handle_t) (ms : Z)
| EvHttpIsComplete (h : esp_http_client_handle_t)
| EvHttpRead (h : esp_http_client_handle_t) (len : Z)
| EvHttpClose (h : esp_http_client_handle_t)
| EvHttpCleanup (h : esp_http_client_handle_t)
| EvRingFree
| EvRingWrite (ticks_ms : Z) (stored : list byte)
| EvDelay (ms : Z).

(** ** Pointers into the two byte regions the reader reads from *)

Inductive region : Type :=
| CallerMemory (bytes : list byte)   (* the view of a MediaFile *)
| StagingBuffer.                     (* this->transfer_buffer_ *)

Record pointer : Type := {
  base : region;
  offset : Z
}.

(** ** The reader and the world it runs in *)

Record AudioReader : Type := {
  transfer_buffer_size_ : Z;
  transfer_buffer_ : option (list byte);
  current_media_file_ : option media_player.MediaFile;
  transfer_buffer_current_ : option pointer;
  transfer_buffer_length_ : Z;
  client_ : esp_http_client_handle_t
}.

(** [ring] is the object behind [output_ring_buffer_]; [trace] lists the
    boundary calls, oldest first. *)
Record World : Type := {
  reader : AudioReader;
  ring : RingBuffer.t;
  trace : list event
}.

Definition set_transfer_buffer_ (v : option (list byte)) (r : AudioReader) :=
  {| transfer_buffer_size_ := transfer_buffer_size_ r;
     transfer_buffer_ := v;
     current_media_file_ := current_media_file_ r;
     transfer_buffer_current_ := transfer_buffer_current_ r;
     transfer_buffer_length_ := transfer_buffer_length_ r;
     client_ := client_ r |}.

Definition set_current_media_file_ (v : option media_player.MediaFile)
  (r : AudioReader) :=
  {| transfer_buffer_size_ := transfer_buffer_size_ r;
     transfer_buffer_ := transfer_buffer_ r;
     current_media_file_ := v;
     transfer_buffer_current_ := transfer_buffer_current_ r;
     transfer_buffer_length_ := transfer_buffer_length_ r;
     client_ := client_ r |}.

Definition set_transfer_buffer_current_ (v : option pointer) (r : AudioReader) :=
  {| transfer_buffer_size_ := transfer_buffer_size_ r;
     transfer_buffer_ := transfer_buffer_ r;
     current_media_file_ := current_media_file_ r;
     transfer_buffer_current_ := v;
     transfer_buffer_length_ := transfer_buffer_length_ r;
     client_ := client_ r |}.

Definition set_transfer_buffer_length_ (v : Z) (r : AudioReader) :=
  {| transfer_buffer_size_ := transfer_buffer_size_ r;
     transfer_buffer_ := transfer_buffer_ r;
     current_media_file_ := current_media_file_ r;
     transfer_buffer_current_ := transfer_buffer_current_ r;
     transfer_buffer_length_ := v;
     client_ := client_ r |}.

Definition set_client_ (v : esp_http_client_handle_t) (r : AudioReader) :=
  {| transfer_buffer_size_ := transfer_buffer_size_ r;
     transfer_buffer_ := transfer_buffer_ r;
     current_media_file_ := current_media_file_ r;
     transfer_buffer_current_ := transfer_buffer_current_ r;
     transfer_buffer_length_ := transfer_buffer_length_ r;
     client_ := v |}.

(** ** A state monad over the world *)

Definition M (A : Type) : Type := World -> A * World.

Definition ret {A : Type} (a : A) : M A := fun w => (a, w).

Definition bind {A B : Type} (m : M A) (k : A -> M B) : M B :=
  fun w => let (a, w') := m w in k a w'.

Declare Scope reader_scope.
Delimit Scope reader_scope with reader.
Notation "x <- m ;; k" := (bind m (fun x => k))
  (at level 61, m at next level, right associativity) : reader_scope.
Notation "m ;; k" := (bind m (fun _ => k))
  (at level 61, right associativity) : reader_scope.
Local Open Scope reader_scope.

Definition this : M AudioReader := fun w => (reader w, w).

Definition update (f : AudioReader -> AudioReader) : M unit :=
  fun w => (tt, {| reader := f (reader w); ring := ring w; trace := trace w |}).

Definition emit (e : event) : M unit :=
  fun w => (tt, {| reader := reader w; ring := ring w; trace := trace w ++ [e] |}).

Definition with_ring {A : Type} (f : RingBuffer.t -> A * RingBuffer.t) : M A :=
  fun w => let (a, rb) := f (ring w) in
           (a, {| reader := reader w; ring := rb; trace := trace w |}).

(** ** The collaborators, with their answers as arguments *)

(** ExternalRAMAllocator<uint8_t>::allocate with ALLOW_FAILURE. *)
Definition allocate (succeeds : bool) (n : Z) : M (option (list byte)) :=
  emit (EvAllocate n) ;;
  ret (if succeeds then Some (repeat Byte.x00 (Z.to_nat n)) else None).

Definition esp_http_client_init (answer : esp_http_client_handle_t)
  (config : esp_http_client_config_t) : M esp_http_client_handle_t :=
  emit (EvHttpInit config) ;; ret answer.

Definition esp_http_client_open (answer : esp_err_t)
  (h : esp_http_client_handle_t) : M esp_err_t :=
  emit (EvHttpOpen h) ;; ret answer.

Definition esp_http_client_fetch_headers (answer : Z)
  (h : esp_http_client_handle_t) : M Z :=
  emit (EvHttpFetchHeaders h) ;; ret answer.

Definition esp_http_client_get_url (answer : esp_err_t * string)
  (h : esp_http_client_handle_t) : M (esp_err_t * string) :=
  emit (EvHttpGetUrl h) ;; ret answer.

Definition esp_http_client_set_timeout_ms (answer : esp_err_t)
  (h : esp_http_client_handle_t) (ms : Z) : M esp_err_t :=
  emit (EvHttpSetTimeout h ms) ;; ret answer.

Definition esp_http_client_is_complete_data_received (answer : bool)
  (h : esp_http_client_handle_t) : M bool :=
  emit (EvHttpIsComplete h) ;; ret answer.

(** The session deposits [bytes] at the start of the staging buffer and
    returns [answer]: a byte count, or a negative error code. *)
Definition deposit (bytes old : list byte) : list byte :=
  bytes ++ skipn (List.length bytes) old.

Definition esp_http_client_read (answer : Z) (bytes : list byte)
  (h : esp_http_client_handle_t) (len : Z) : M Z :=
  emit (EvHttpRead h len) ;;
  update (fun r => set_transfer_buffer_
                     (option_map (deposit bytes) (transfer_buffer_ r)) r) ;;
  ret answer.

Definition esp_http_client_close (h : esp_http_client_handle_t) : M unit :=
  emit (EvHttpClose h).

Definition esp_http_client_cleanup (h : esp_http_client_handle_t) : M unit :=
  emit (EvHttpCleanup h).

Definition vTaskDelay (ms : Z) : M unit := emit (EvDelay ms).

(** output_ring_buffer_->free(), after the consumer took [consumed] bytes. *)
Definition ring_free (consumed : nat) : M Z :=
  emit EvRingFree ;;
  with_ring (fun rb => let rb' := RingBuffer.consume consumed rb in
                       (RingBuffer.free rb', rb')).

(** What a pointer designates: the [len] bytes that start at it. *)
Definition load (p : option pointer) (len : Z) : M (list byte) :=
  r <- this ;;
  ret (match p with
       | None => []
       | Some q =>
           let mem := match base q with
                      | CallerMemory bytes => bytes
                      | StagingBuffer =>
                          match transfer_buffer_ r with
                          | Some buf => buf
                          | None => []
                          end
                      end in
           firstn (Z.to_nat len) (skipn (Z.to_nat (offset q)) mem)
       end).

(** output_ring_buffer_->write_without_replacement(p, len, ticks); the
    consumer takes [consumed] bytes while the write waits for room. *)
Definition ring_write (consumed : nat) (p : option pointer) (len ticks_ms : Z)
  : M Z :=
  src <- load p len ;;
  n <- with_ring (fun rb =>
         RingBuffer.write_without_replacement
           (RingBuffer.consume consumed rb) src len) ;;
  emit (EvRingWrite ticks_ms (firstn (Z.to_nat n) src)) ;;
  ret n.

(** Modelled from the spec: helpers.h of esphome core is not part of this
    component; [str_endswith] tests whether [s] ends with [suffix]. *)
Definition str_endswith (s suffix : string) : bool :=
  let n := String.length s in
  let k := String.length suffix in
  (k <=? n)%nat && String.eqb (substring (n - k) k s) suffix.

(** uri.find(needle) != std::string::npos *)
Definition str_contains (s needle : string) : bool :=
  match String.index 0 needle s with
  | Some _ => true
  | None => false
  end.

(** ** The answers of the collaborators during one call *)

Record StartEnv : Type := {
  allocate_succeeds : bool;
  init_answer : esp_http_client_handle_t;
  open_answer : esp_err_t;
  fetch_headers_answer : Z;
  get_url_answer : esp_err_t * string;
  set_timeout_answer : esp_err_t
}.

Record StepEnv : Type := {
  consumed_before : nat;
  is_complete_answer : bool;
  read_answer : Z;
  read_bytes : list byte;
  consumed_while_waiting : nat
}.

(** ** audio_reader.cpp *)

Definition READ_WRITE_TIMEOUT_MS : Z := 20.
Definition ERROR_COUNT_NO_DATA_READ_TIMEOUT : Z := 50.

(** Modelled from the spec: audio_reader.h is not part of the sources; the
    members that the constructor does not assign start as null pointers and
    zero ("initial state is no source"). *)
Definition AudioReader_new (transfer_buffer_size : Z) : AudioReader :=
  {| transfer_buffer_size_ := transfer_buffer_size;
     transfer_buffer_ := None;
     current_media_file_ := None;
     transfer_buffer_current_ := None;
     transfer_buffer_length_ := 0;
     client_ := None |}.

Definition new_world (output_ring_buffer : RingBuffer.t)
  (transfer_buffer_size : Z) : World :=
  {| reader := AudioReader_new transfer_buffer_size;
     ring := output_ring_buffer;
     trace := [] |}.

Definition cleanup_connection_ : M unit :=
  r <- this ;;
  match client_ r with
  | Some _ =>
      esp_http_client_close (client_ r) ;;
      esp_http_client_cleanup (client_ r) ;;
      update (set_client_ None)
  | None => ret tt
  end.

Definition allocate_buffers_ (env : StartEnv) : M esp_err_t :=
  r <- this ;;
  match transfer_buffer_ r with
  | None =>
      buf <- allocate (allocate_succeeds env) (transfer_buffer_size_ r) ;;
      update (set_transfer_buffer_ buf)
  | Some _ => ret tt
  end ;;
  r <- this ;;
  match transfer_buffer_ r with
  | None => ret ESP_ERR_NO_MEM
  | Some _ => ret ESP_OK
  end.

(** start(MediaFile *, MediaFileType &): the result pairs the status with the
    value left in the [file_type] output parameter. *)
Definition start_file (env : StartEnv) (media_file : media_player.MediaFile)
  : M (esp_err_t * media_player.MediaFileType) :=
  err <- allocate_buffers_ env ;;
  if negb (err =? ESP_OK) then ret (err, media_player.NONE)
  else
    update (set_current_media_file_ (Some media_file)) ;;
    update (set_transfer_buffer_current_
              (Some {| base := CallerMemory (media_player.data media_file);
                       offset := 0 |})) ;;
    update (set_transfer_buffer_length_ (media_player.length media_file)) ;;
    ret (ESP_OK, media_player.file_type media_file).

Definition client_config_for (uri : string) : esp_http_client_config_t :=
  {| url := uri;
     cert_pem := None;
     disable_auto_redirect := false;
     max_redirection_count := 10;
     buffer_size := 4 * 1024;
     keep_alive_enable := true;
     timeout_ms := 5000;
     crt_bundle_attach :=
       CONFIG_MBEDTLS_CERTIFICATE_BUNDLE && str_contains uri "https:" |}.

(** start(const std::string &, MediaFileType &) *)
Definition start_uri (env : StartEnv) (uri : string)
  : M (esp_err_t * media_player.MediaFileType) :=
  err <- allocate_buffers_ env ;;
  if negb (err =? ESP_OK) then ret (err, media_player.NONE)
  else
    cleanup_connection_ ;;
    if String.eqb uri EmptyString then ret (ESP_ERR_INVALID_ARG, media_player.NONE)
    else
      h <- esp_http_client_init (init_answer env) (client_config_for uri) ;;
      update (set_client_ h) ;;
      match h with
      | None => ret (ESP_FAIL, media_player.NONE)
      | Some _ =>
          err <- esp_http_client_open (open_answer env) h ;;
          if negb (err =? ESP_OK) then
            cleanup_connection_ ;; ret (err, media_player.NONE)
          else
            _content_length <-
              esp_http_client_fetch_headers (fetch_headers_answer env) h ;;
            got <- esp_http_client_get_url (get_url_answer env) h ;;
            let (err, url_string) := got in
            if negb (err =? ESP_OK) then
              cleanup_connection_ ;; ret (err, media_player.NONE)
            else
              let suffix_type :=
                if str_endswith url_string ".wav" then Some media_player.WAV
                else if str_endswith url_string ".mp3" then Some media_player.MP3
                else if str_endswith url_string ".flac" then Some media_player.FLAC
                else None in
              match suffix_type with
              | None =>
                  cleanup_connection_ ;;
                  ret (ESP_ERR_NOT_SUPPORTED, media_player.NONE)
              | Some file_type =>
                  err <- esp_http_client_set_timeout_ms
                           (set_timeout_answer env) h 10 ;;
                  if negb (err =? ESP_OK) then
                    cleanup_connection_ ;; ret (err, file_type)
                  else
                    update (set_transfer_buffer_current_
                              (Some {| base := StagingBuffer; offset := 0 |})) ;;
                    update (set_transfer_buffer_length_ 0) ;;
                    ret (ESP_OK, file_type)
              end
      end.

Definition file_read_ (env : StepEnv) : M AudioReaderState :=
  r <- this ;;
  if 0 <? transfer_buffer_length_ r then
    bytes_written <-
      ring_write (consumed_while_waiting env) (transfer_buffer_current_ r)
        (transfer_buffer_length_ r) READ_WRITE_TIMEOUT_MS ;;
    update (fun r => set_transfer_buffer_length_
                       (size_t_wrap (transfer_buffer_length_ r - bytes_written)) r) ;;
    update (fun r => set_transfer_buffer_current_
                       (option_map
                          (fun p => {| base := base p;
                                       offset := offset p + bytes_written |})
                          (transfer_buffer_current_ r)) r) ;;
    ret READING
  else ret FINISHED.

Definition http_read_ (env : StepEnv) : M AudioReaderState :=
  r <- this ;;
  complete <- esp_http_client_is_complete_data_received
                (is_complete_answer env) (client_ r) ;;
  if complete then
    cleanup_connection_ ;; ret FINISHED
  else
    space_available <- ring_free (consumed_before env) ;;
    let bytes_to_read :=
      if space_available <? transfer_buffer_size_ r then space_available
      else transfer_buffer_size_ r in
    received_len <- esp_http_client_read (read_answer env) (read_bytes env)
                      (client_ r) bytes_to_read ;;
    if received_len <? 0 then
      cleanup_connection_ ;; ret FAILED
    else
      (if 0 <? received_len then
         _bytes_written <-
           ring_write (consumed_while_waiting env)
             (Some {| base := StagingBuffer; offset := 0 |})
             received_len READ_WRITE_TIMEOUT_MS ;;
         ret tt
       else ret tt) ;;
      (if size_t_wrap (int_wrap (received_len * 4))
          <? size_t_wrap (transfer_buffer_size_ r * 3)
       then vTaskDelay 20
       else ret tt) ;;
      ret READING.

Definition read (env : StepEnv) : M AudioReaderState :=
  r <- this ;;
  match client_ r with
  | Some _ => http_read_ env
  | None =>
      match current_media_file_ r with
      | Some _ => file_read_ env
      | None => ret FAILED
      end
  end.

(** ** Repeated stepping and observations on the trace *)

(** The caller polls [read] once per element of the script. *)
Fixpoint run (envs : list StepEnv) (w : World) : World :=
  match envs with
  | [] => w
  | env :: rest => run rest (snd (read env w))
  end.

(** All bytes ever stored into the consumer buffer, in order. *)
Fixpoint forwarded (tr : list event) : list byte :=
  match tr with
  | [] => []
  | EvRingWrite _ stored :: rest => stored ++ forwarded rest
  | _ :: rest => forwarded rest
  end.

(** The lengths requested from the session, one per read request. *)
Fixpoint read_requests (tr : list event) : list Z :=
  match tr with
  | [] => []
  | EvHttpRead _ len :: rest => len :: read_requests rest
  | _ :: rest => read_requests rest
  end.

Definition handle_eqb (a b : esp_http_client_handle_t) : bool :=
  match a, b with
  | Some x, Some y => Pos.eqb x y
  | None, None => true
  | _, _ => false
  end.

(** How often the session [h] was closed, and how often it was released. *)
Fixpoint closes (h : esp_http_client_handle_t) (tr : list event) : nat :=
  match tr with
  | [] => 0%nat
  | EvHttpClose k :: rest =>
      ((if handle_eqb k h then 1 else 0) + closes h rest)%nat
  | _ :: rest => closes h rest
  end.

Fixpoint releases (h : esp_http_client_handle_t) (tr : list event) : nat :=
  match tr with
  | [] => 0%nat
  | EvHttpCleanup k :: rest =>
      ((if handle_eqb k h then 1 else 0) + releases h rest)%nat
  | _ :: rest => releases h rest
  end.

Fixpoint delays (tr : list event) : list Z :=
  match tr with
  | [] => []
  | EvDelay ms :: rest => ms :: delays rest
  | _ :: rest => delays rest
  end.

(** Calls that open or use a session (anything but its teardown). *)
Definition is_session_use (e : event) : bool :=
  match e with
  | EvHttpInit _ | EvHttpOpen _ | EvHttpFetchHeaders _ | EvHttpGetUrl _
  | EvHttpSetTimeout _ _ | EvHttpIsComplete _ | EvHttpRead _ _ => true
  | _ => false
  end.

(** The boundary calls made between world [w] and a later world [w']. *)
Definition new_events (w w' : World) : list event :=
  skipn (List.length (trace w)) (trace w').

(** The allocator call of [allocate_buffers_], made only while the staging
    buffer does not exist yet. *)
Definition allocation_events (r : AudioReader) : list event :=
  match transfer_buffer_ r with
  | None => [EvAllocate (transfer_buffer_size_ r)]
  | Some _ => []
  end.

(** The two calls with which [cleanup_connection_] gives up session [c]. *)
Definition teardown_events (c : esp_http_client_handle_t) : list event :=
  match c with
  | Some _ => [EvHttpClose c; EvHttpCleanup c]
  | None => []
  end.

(** The staging buffer exists or its allocation is going to succeed. *)
Definition staging_available (env : StartEnv) (w : World) : Prop :=
  transfer_buffer_ (reader w) <> None \/ allocate_succeeds env = true.

(** The read quota of the network path. *)
Definition read_quota (env : StepEnv) (w : World) : Z :=
  Z.min (transfer_buffer_size_ (reader w))
        (RingBuffer.free (RingBuffer.consume (consumed_before env) (ring w))).

(** The consumer leaves room for at least one byte at every write of the
    script. *)
Fixpoint responsive (envs : list StepEnv) (w : World) : Prop :=
  match envs with
  | [] => True
  | env :: rest =>
      0 < RingBuffer.free
            (RingBuffer.consume (consumed_while_waiting env) (ring w))
      /\ responsive rest (snd (read env w))
  end.

(** The pacing test of [http_read_], on the 32-bit operands. *)
Definition paced (received size : Z) : bool :=
  size_t_wrap (int_wrap (received * 4)) <? size_t_wrap (size * 3).

(** No call of the list opens or uses a session. *)
Definition no_session_use (evs : list event) : bool :=
  forallb (fun e => negb (is_session_use e)) evs.

(** The reader is on the memory path, [k] bytes into the view of [f]. *)
Definition streaming_file (f : media_player.MediaFile) (k : nat) (w : World)
  : Prop :=
  client_ (reader w) = None
  /\ current_media_file_ (reader w) = Some f
  /\ transfer_buffer_current_ (reader w)
     = Some {| base := CallerMemory (media_player.data f);
               offset := Z.of_nat k |}
  /\ transfer_buffer_length_ (reader w) = media_player.length f - Z.of_nat k
  /\ (k <= List.length (media_player.data f))%nat.

(** ** The destructor and sequences of calls *)

(** ~AudioReader(): the staging buffer goes back to the allocator if it
    exists, then the session is cleaned up.  The result is the size handed to
    [deallocate], or [None] when [deallocate] is not called. *)
Definition AudioReader_destroy : M (option Z) :=
  r <- this ;;
  let deallocated :=
    match transfer_buffer_ r with
    | Some _ => Some (transfer_buffer_size_ r)
    | None => None
    end in
  cleanup_connection_ ;;
  ret deallocated.

(** What a caller can do with a reader between construction and
    destruction. *)
Inductive call : Type :=
| CallStartFile (env : StartEnv) (media_file : media_player.MediaFile)
| CallStartUri (env : StartEnv) (uri : string)
| CallRead (env : StepEnv).

Definition perform (c : call) (w : World) : World :=
  match c with
  | CallStartFile env media_file => snd (start_file env media_file w)
  | CallStartUri env uri => snd (start_uri env uri w)
  | CallRead env => snd (read env w)
  end.

Fixpoint perform_all (cs : list call) (w : World) : World :=
  match cs with
  | [] => w
  | c :: rest => perform_all rest (perform c w)
  end.

(** The file type that the suffix tests of [start] pick for a resolved URL;
    NONE when no test succeeds. *)
Definition file_type_of_url (url_string : string) : media_player.MediaFileType :=
  if str_endswith url_string ".wav" then media_player.WAV
  else if str_endswith url_string ".mp3" then media_player.MP3
  else if str_endswith url_string ".flac" then media_player.FLAC
  else media_player.NONE.

(** Counting boundary calls of one kind. *)
Definition count (p : event -> bool) (tr : list event) : nat :=
  List.length (filter p tr).

Definition is_allocation (e : event) : bool :=
  match e with EvAllocate _ => true | _ => false end.

Definition is_open (e : event) : bool :=
  match e with EvHttpOpen _ => true | _ => false end.

Definition is_close (e : event) : bool :=
  match e with EvHttpClose _ => true | _ => false end.

Definition is_release (e : event) : bool :=
  match e with EvHttpCleanup _ => true | _ => false end.

(** The number of sessions that the reader holds: one or none. *)
Definition alive (c : esp_http_client_handle_t) : nat :=
  match c with Some _ => 1%nat | None => 0%nat end.

(** The facts about one call that the invariants below are made of: the
    trace only grows; the staging capacity is fixed; an existing staging
    buffer stays and is not allocated again; no read request exceeds the
    capacity; sessions opened and released balance with the session held;
    every release comes with a close. *)
Definition call_effects (w w' : World) (evs : list event) : Prop :=
  trace w' = trace w ++ evs
  /\ transfer_buffer_size_ (reader w') = transfer_buffer_size_ (reader w)
  /\ (transfer_buffer_ (reader w) <> None ->
      transfer_buffer_ (reader w') <> None /\ count is_allocation evs = 0%nat)
  /\ Forall (fun q => q <= transfer_buffer_size_ (reader w)) (read_requests evs)
  /\ (count is_open evs + alive (client_ (reader w))
      = count is_release evs + alive (client_ (reader w')))%nat
  /\ count is_close evs = count is_release evs.

(** How often session [h] was opened. *)
Fixpoint opens (h : esp_http_client_handle_t) (tr : list event) : nat :=
  match tr with
  | [] => 0%nat
  | EvHttpOpen k :: rest =>
      ((if handle_eqb k h then 1 else 0) + opens h rest)%nat
  | _ :: rest => opens h rest
  end.

(** Whether the reader holds session [k]: 1 or 0. *)
Definition held (k : positive) (c : esp_http_client_handle_t) : nat :=
  match c with
  | Some j => if Pos.eqb j k then 1%nat else 0%nat
  | None => 0%nat
  end.

(** The account of one session [k] over a call: the trace only grows, what
    was opened and was held is what was released and is held, and [k] is
    closed as often as it is released. *)
Definition session_account (k : positive) (w w' : World) (evs : list event)
  : Prop :=
  trace w' = trace w ++ evs
  /\ (opens (Some k) evs + held k (client_ (reader w))
      = releases (Some k) evs + held k (client_ (reader w')))%nat
  /\ closes (Some k) evs = releases (Some k) evs.

(** ** Concrete scenarios *)

Definition small_ring : RingBuffer.t :=
  {| RingBuffer.capacity := 4; RingBuffer.unread := [] |}.

Definition full_ring : RingBuffer.t :=
  {| RingBuffer.capacity := 4;
     RingBuffer.unread := [Byte.x01; Byte.x02; Byte.x03; Byte.x04] |}.

(** A session that opens, delivers its headers and resolves to an mp3 URL. *)
Definition mp3_start : StartEnv :=
  {| allocate_succeeds := true;
     init_answer := Some 1%positive;
     open_answer := ESP_OK;
     fetch_headers_answer := 1000;
     get_url_answer := (ESP_OK, "http://host/a.mp3"%string);
     set_timeout_answer := ESP_OK |}.

(** The same session, except that fetching the response headers fails. *)
Definition headers_failed_start : StartEnv :=
  {| allocate_succeeds := true;
     init_answer := Some 1%positive;
     open_answer := ESP_OK;
     fetch_headers_answer := -1;
     get_url_answer := (ESP_OK, "http://host/a.mp3"%string);
     set_timeout_answer := ESP_OK |}.

(** A session that resolves to an ogg URL. *)
Definition ogg_start : StartEnv :=
  {| allocate_succeeds := true;
     init_answer := Some 1%positive;
     open_answer := ESP_OK;
     fetch_headers_answer := 1000;
     get_url_answer := (ESP_OK, "http://host/a.ogg"%string);
     set_timeout_answer := ESP_OK |}.

(** A five-byte memory source. *)
Definition chime : media_player.MediaFile :=
  {| media_player.data := [Byte.x52; Byte.x49; Byte.x46; Byte.x46; Byte.x00];
     media_player.length := 5;
     media_player.file_type := media_player.WAV |}.

(** A poll that times out with nothing read while the consumer is idle. *)
Definition idle_step : StepEnv :=
  {| consumed_before := 0; is_complete_answer := false; read_answer := 0;
     read_bytes := []; consumed_while_waiting := 0 |}.

(** The session reports that all of its data was received. *)
Definition complete_step : StepEnv :=
  {| consumed_before := 0; is_complete_answer := true; read_answer := 0;
     read_bytes := []; consumed_while_waiting := 0 |}.

(** The session read fails. *)
Definition failing_step : StepEnv :=
  {| consumed_before := 0; is_complete_answer := false; read_answer := -1;
     read_bytes := []; consumed_while_waiting := 0 |}.

(** The consumer empties the small ring while the write waits. *)
Definition draining_step : StepEnv :=
  {| consumed_before := 0; is_complete_answer := false; read_answer := 0;
     read_bytes := []; consumed_while_waiting := 4 |}.

(** A fresh reader with a 64-byte staging buffer after a successful
    [start] on "http://host/a.mp3". *)
Definition streaming_world (rb : RingBuffer.t) : World :=
  snd (start_uri mp3_start "http://host/a.mp3" (new_world rb 64)).

(** A fresh reader after a successful [start] on [chime]. *)
Definition chime_world : World :=
  snd (start_file mp3_start chime (new_world small_ring 64)).

(** The allocator has no memory for the staging buffer. *)
Definition out_of_memory : StartEnv :=
  {| allocate_succeeds := false;
     init_answer := Some 1%positive;
     open_answer := ESP_OK;
     fetch_headers_answer := 1000;
     get_url_answer := (ESP_OK, "http://host/a.mp3"%string);
     set_timeout_answer := ESP_OK |}.

(** A session that resolves to a flac URL and then refuses the read timeout. *)
Definition timeout_failed_start : StartEnv :=
  {| allocate_succeeds := true;
     init_answer := Some 1%positive;
     open_answer := ESP_OK;
     fetch_headers_answer := 1000;
     get_url_answer := (ESP_OK, "http://host/a.flac"%string);
     set_timeout_answer := ESP_FAIL |}.

(** The session delivers six bytes at once. *)
Definition burst_step : StepEnv :=
  {| consumed_before := 0; is_complete_answer := false; read_answer := 6;
     read_bytes := [Byte.x61; Byte.x62; Byte.x63; Byte.x64; Byte.x65; Byte.x66];
     consumed_while_waiting := 0 |}.

(** * Proofs *)

(** ** Lists and traces *)

Lemma skipn_length_app {A : Type} (l m : list A) :
  skipn (List.length l) (l ++ m) = m.
Proof. induction l as [|a l IH]; simpl; auto. Qed.

Lemma new_events_extension (w w' : World) (evs : list event) :
  trace w' = trace w ++ evs -> new_events w w' = evs.
Proof. unfold new_events; intros ->; apply skipn_length_app. Qed.

Lemma new_events_refl (w : World) : new_events w w = [].
Proof. apply new_events_extension; now rewrite app_nil_r. Qed.

Lemma firstn_skipn_firstn {A : Type} (k n : nat) (l : list A) :
  firstn k l ++ firstn n (skipn k l) = firstn (k + n) l.
Proof.
  revert l; induction k as [|k IH]; intros l; simpl; auto.
  destruct l as [|a l]; simpl.
  - now rewrite firstn_nil.
  - now rewrite IH.
Qed.

(** Unfolding the reader's operations down to the world they produce. *)
Ltac step_reader :=
  cbv [read http_read_ file_read_ start_uri start_file allocate_buffers_
       cleanup_connection_ allocate esp_http_client_init esp_http_client_open
       esp_http_client_fetch_headers esp_http_client_get_url
       esp_http_client_set_timeout_ms
       esp_http_client_is_complete_data_received esp_http_client_read
       esp_http_client_close esp_http_client_cleanup vTaskDelay ring_free
       ring_write load with_ring RingBuffer.write_without_replacement bind ret
       this update emit];
  cbn [reader ring trace fst snd transfer_buffer_size_ transfer_buffer_
       current_media_file_ transfer_buffer_current_ transfer_buffer_length_
       client_ set_transfer_buffer_ set_current_media_file_
       set_transfer_buffer_current_ set_transfer_buffer_length_ set_client_
       base offset].

Ltac open_world w :=
  let r := fresh "r" in
  destruct w as [r ? ?]; destruct r; cbn [reader ring trace
    transfer_buffer_size_ transfer_buffer_ current_media_file_
    transfer_buffer_current_ transfer_buffer_length_ client_] in *.

(** ** Cleanup *)

Lemma cleanup_connection_without_session (w : World) :
  client_ (reader w) = None -> cleanup_connection_ w = (tt, w).
Proof.
  intros H. open_world w. subst. reflexivity.
Qed.

(** ** Stepping without a source *)

Lemma read_idle (env : StepEnv) (w : World) :
  client_ (reader w) = None ->
  current_media_file_ (reader w) = None ->
  read env w = (FAILED, w).
Proof.
  intros Hc Hm. open_world w. subst. reflexivity.
Qed.

(** C10: with no network session and no memory source recorded, the step
    operation returns FAILED and leaves the world as it is: no call reaches
    the session or the consumer buffer, nothing is read and nothing is
    written. *)
Theorem read_without_source_fails (env : StepEnv) (w : World) :
  client_ (reader w) = None ->
  current_media_file_ (reader w) = None ->
  read env w = (FAILED, w).
Proof. exact (read_idle env w). Qed.

Lemma read_without_source_fails_witness :
  read idle_step (new_world small_ring 64) = (FAILED, new_world small_ring 64).
Proof.
  apply (read_without_source_fails idle_step (new_world small_ring 64));
    reflexivity.
Defined.

(** ** The network path *)

Lemma quota_is_min (space size : Z) :
  (if space <? size then space else size) = Z.min size space.
Proof. destruct (Z.ltb_spec space size); lia. Qed.

(** The three ways through [http_read_], as equations. *)

Lemma http_read_complete (env : StepEnv) (w : World) (h : positive) :
  client_ (reader w) = Some h ->
  is_complete_answer env = true ->
  read env w =
    (FINISHED,
     {| reader := set_client_ None (reader w);
        ring := ring w;
        trace := trace w ++ [EvHttpIsComplete (Some h);
                             EvHttpClose (Some h); EvHttpCleanup (Some h)] |}).
Proof.
  intros Hc Hcomplete. open_world w. subst. step_reader.
  rewrite Hcomplete. step_reader. now rewrite <- !app_assoc.
Qed.

Lemma http_read_error (env : StepEnv) (w : World) (h : positive) :
  client_ (reader w) = Some h ->
  is_complete_answer env = false ->
  read_answer env < 0 ->
  read env w =
    (FAILED,
     {| reader :=
          set_client_ None
            (set_transfer_buffer_
               (option_map (deposit (read_bytes env))
                  (transfer_buffer_ (reader w))) (reader w));
        ring := RingBuffer.consume (consumed_before env) (ring w);
        trace := trace w ++ [EvHttpIsComplete (Some h); EvRingFree;
                             EvHttpRead (Some h) (read_quota env w);
                             EvHttpClose (Some h); EvHttpCleanup (Some h)] |}).
Proof.
  intros Hc Hcomplete Hneg.
  assert (Hlt : (read_answer env <? 0) = true) by (apply Z.ltb_lt; lia).
  open_world w. subst. unfold read_quota. step_reader.
  rewrite Hcomplete. step_reader. rewrite Hlt. step_reader.
  now rewrite <- !app_assoc, quota_is_min.
Qed.

(** The events of a step that goes on READING: the completion check, the
    free-space query, one read request, the write of what was received (if
    anything) and the pacing delay (if due). *)
Lemma http_read_reading (env : StepEnv) (w : World) (h : positive) :
  client_ (reader w) = Some h ->
  is_complete_answer env = false ->
  0 <= read_answer env ->
  exists stored,
    fst (read env w) = READING
    /\ client_ (reader (snd (read env w))) = Some h
    /\ trace (snd (read env w)) =
         trace w
         ++ [EvHttpIsComplete (Some h); EvRingFree;
             EvHttpRead (Some h) (read_quota env w)]
         ++ (if 0 <? read_answer env
             then [EvRingWrite READ_WRITE_TIMEOUT_MS stored] else [])
         ++ (if paced (read_answer env) (transfer_buffer_size_ (reader w))
             then [EvDelay 20] else []).
Proof.
  intros Hc Hcomplete Hpos.
  assert (Hge : (read_answer env <? 0) = false) by (apply Z.ltb_ge; lia).
  open_world w. subst. unfold read_quota, paced. step_reader.
  rewrite Hcomplete. step_reader. rewrite Hge.
  destruct (0 <? read_answer env); step_reader;
    match goal with
    | |- context [size_t_wrap (int_wrap ?a) <? size_t_wrap ?b] =>
        destruct (size_t_wrap (int_wrap a) <? size_t_wrap b)
    end; step_reader; eexists; repeat split;
    rewrite <- ?app_assoc, ?quota_is_min; cbn [app];
    first [reflexivity | exact []].
Qed.

(** C6: when the session read returns a negative value the step returns
    FAILED; during that step the session is closed once and released once,
    nothing reaches the consumer buffer, the handle is null afterwards, and a
    further cleanup changes nothing. *)
Theorem http_read_negative_releases_once
  (env : StepEnv) (w : World) (h : positive) :
  client_ (reader w) = Some h ->
  is_complete_answer env = false ->
  read_answer env < 0 ->
  let w' := snd (read env w) in
  fst (read env w) = FAILED
  /\ new_events w w' =
       [EvHttpIsComplete (Some h); EvRingFree;
        EvHttpRead (Some h) (read_quota env w);
        EvHttpClose (Some h); EvHttpCleanup (Some h)]
  /\ closes (Some h) (new_events w w') = 1%nat
  /\ releases (Some h) (new_events w w') = 1%nat
  /\ client_ (reader w') = None
  /\ cleanup_connection_ w' = (tt, w').
Proof.
  intros Hc Hcomplete Hneg.
  rewrite (http_read_error env w h Hc Hcomplete Hneg). cbn [fst snd].
  match goal with
  | |- context [new_events w ?w'] =>
      rewrite (new_events_extension w w' _ eq_refl)
  end.
  cbn [closes releases handle_eqb]. rewrite Pos.eqb_refl.
  repeat split.
Qed.

Lemma read_requests_app (a b : list event) :
  read_requests (a ++ b) = read_requests a ++ read_requests b.
Proof.
  induction a as [|e a IH]; simpl; auto.
  destruct e; auto. now rewrite IH.
Qed.

Lemma delays_app (a b : list event) : delays (a ++ b) = delays a ++ delays b.
Proof.
  induction a as [|e a IH]; simpl; auto.
  destruct e; auto. now rewrite IH.
Qed.

(** A step that goes on READING saw an incomplete transfer and a
    non-negative read result. *)
Lemma http_read_reading_inv (env : StepEnv) (w : World) (h : positive) :
  client_ (reader w) = Some h ->
  fst (read env w) = READING ->
  is_complete_answer env = false /\ 0 <= read_answer env.
Proof.
  intros Hc Hst.
  destruct (is_complete_answer env) eqn:Hcomplete.
  - rewrite (http_read_complete env w h Hc Hcomplete) in Hst. discriminate.
  - split; auto. destruct (Z.lt_ge_cases (read_answer env) 0) as [Hneg|]; auto.
    rewrite (http_read_error env w h Hc Hcomplete Hneg) in Hst. discriminate.
Qed.

(** C4, as the code has it: a network step that finds the transfer complete
    requests nothing from the session; every other network step issues
    exactly one session read, for min(staging capacity, free space of the
    consumer buffer) bytes.  With a full consumer buffer that quota is 0, and
    the read is still issued, for 0 bytes. *)
Theorem http_read_requests_quota (env : StepEnv) (w : World) (h : positive) :
  client_ (reader w) = Some h ->
  let evs := new_events w (snd (read env w)) in
  (is_complete_answer env = true ->
     fst (read env w) = FINISHED /\ read_requests evs = [])
  /\ (is_complete_answer env = false ->
        read_requests evs = [read_quota env w])
  /\ (is_complete_answer env = false ->
      0 <= transfer_buffer_size_ (reader w) ->
      RingBuffer.free (RingBuffer.consume (consumed_before env) (ring w)) = 0 ->
        read_requests evs = [0]).
Proof.
  intros Hc evs.
  assert (Hreq : is_complete_answer env = false ->
                 read_requests evs = [read_quota env w]).
  { intros Hcomplete. subst evs.
    destruct (Z.lt_ge_cases (read_answer env) 0) as [Hneg|Hpos].
    - rewrite (http_read_error env w h Hc Hcomplete Hneg). cbn [snd].
      match goal with
      | |- context [new_events w ?w'] =>
          rewrite (new_events_extension w w' _ eq_refl)
      end. reflexivity.
    - destruct (http_read_reading env w h Hc Hcomplete Hpos)
        as (stored & _ & _ & Htr).
      rewrite (new_events_extension _ _ _ Htr).
      rewrite !read_requests_app. cbn [read_requests app].
      destruct (0 <? read_answer env), (paced _ _); reflexivity. }
  split; [|split].
  - intros Hcomplete. subst evs.
    rewrite (http_read_complete env w h Hc Hcomplete). cbn [fst snd].
    match goal with
    | |- context [new_events w ?w'] =>
        rewrite (new_events_extension w w' _ eq_refl)
    end. split; reflexivity.
  - exact Hreq.
  - intros Hcomplete Hsize Hfull. rewrite (Hreq Hcomplete).
    unfold read_quota. rewrite Hfull. f_equal. lia.
Qed.

(** The 32-bit comparison of the pacing test agrees with the exact one as
    long as neither product overflows. *)
Lemma paced_exact (received size : Z) :
  0 <= received <= size -> size < 2 ^ 29 ->
  paced received size = (received * 4 <? size * 3).
Proof.
  intros Hr Hs. unfold paced, size_t_wrap, int_wrap.
  rewrite (Z.mod_small (received * 4 + 2 ^ 31)) by lia.
  replace (received * 4 + 2 ^ 31 - 2 ^ 31) with (received * 4) by lia.
  rewrite !Z.mod_small by lia. reflexivity.
Qed.

(** C7: on a network step that goes on READING, the pacing delay is taken
    exactly when the bytes received are strictly fewer than 3/4 of the
    staging capacity; this is stated for capacities below 2^29 bytes and a
    session that returns no more than the capacity, where the 32-bit products
    of the test do not overflow. *)
Theorem http_read_pacing (env : StepEnv) (w : World) (h : positive) :
  client_ (reader w) = Some h ->
  fst (read env w) = READING ->
  0 <= transfer_buffer_size_ (reader w) < 2 ^ 29 ->
  read_answer env <= transfer_buffer_size_ (reader w) ->
  let evs := new_events w (snd (read env w)) in
  (read_answer env * 4 < transfer_buffer_size_ (reader w) * 3 ->
     delays evs = [20])
  /\ (transfer_buffer_size_ (reader w) * 3 <= read_answer env * 4 ->
        delays evs = []).
Proof.
  intros Hc Hst Hsize Hle evs.
  destruct (http_read_reading_inv env w h Hc Hst) as [Hcomplete Hpos].
  destruct (http_read_reading env w h Hc Hcomplete Hpos)
    as (stored & _ & _ & Htr).
  subst evs. rewrite (new_events_extension _ _ _ Htr).
  rewrite !delays_app. cbn [delays app].
  rewrite paced_exact by lia.
  destruct (0 <? read_answer env);
    destruct (Z.ltb_spec (read_answer env * 4)
                (transfer_buffer_size_ (reader w) * 3));
    cbn [delays app]; split; intros; try reflexivity; lia.
Qed.

(** ** Starting a network source *)

Lemma nonempty_uri (uri : string) :
  uri <> EmptyString -> String.eqb uri EmptyString = false.
Proof. intros H. now apply String.eqb_neq. Qed.

(** C9: with the staging buffer available, [start] with the empty URI
    returns ESP_ERR_INVALID_ARG and leaves the file type at NONE; it opens no
    session and makes no call that opens or uses one: the only calls are the
    allocation of the staging buffer (if still due) and the teardown of the
    session of an earlier start (if any), and the handle is null afterwards. *)
Theorem start_uri_empty_is_invalid_argument (env : StartEnv) (w : World) :
  staging_available env w ->
  let result := start_uri env EmptyString w in
  fst result = (ESP_ERR_INVALID_ARG, media_player.NONE)
  /\ client_ (reader (snd result)) = None
  /\ new_events w (snd result) =
       allocation_events (reader w) ++ teardown_events (client_ (reader w))
  /\ forallb (fun e => negb (is_session_use e)) (new_events w (snd result))
     = true.
Proof.
  intros Havail result. subst result.
  unfold staging_available, allocation_events, teardown_events in *.
  open_world w.
  destruct transfer_buffer_0 as [buf|]; destruct client_0 as [k|];
    step_reader;
    try (destruct Havail as [Habs|Halloc]; [now elim Habs|];
         rewrite Halloc; step_reader);
    cbn [Z.eqb ESP_OK negb String.eqb]; step_reader;
    rewrite <- ?app_assoc;
    match goal with
    | |- context [new_events ?a ?b] =>
        rewrite (new_events_extension a b _ eq_refl)
        || (change b with a; rewrite new_events_refl)
    end; repeat split.
Qed.

(** C8: when [start] gets as far as a resolved URL (staging buffer
    available, non-empty URI, session created and opened, URL read back) and
    that URL ends in none of .wav, .mp3 and .flac, it returns
    ESP_ERR_NOT_SUPPORTED with the file type NONE; the session it opened has
    been closed and released, the handle is null, and a further cleanup
    changes nothing. *)
Theorem start_uri_unsupported_suffix
  (env : StartEnv) (uri url_string : string) (w : World) (h : positive) :
  staging_available env w ->
  uri <> EmptyString ->
  init_answer env = Some h ->
  open_answer env = ESP_OK ->
  get_url_answer env = (ESP_OK, url_string) ->
  str_endswith url_string ".wav" = false ->
  str_endswith url_string ".mp3" = false ->
  str_endswith url_string ".flac" = false ->
  let result := start_uri env uri w in
  fst result = (ESP_ERR_NOT_SUPPORTED, media_player.NONE)
  /\ client_ (reader (snd result)) = None
  /\ new_events w (snd result) =
       allocation_events (reader w) ++ teardown_events (client_ (reader w))
       ++ [EvHttpInit (client_config_for uri); EvHttpOpen (Some h);
           EvHttpFetchHeaders (Some h); EvHttpGetUrl (Some h);
           EvHttpClose (Some h); EvHttpCleanup (Some h)]
  /\ cleanup_connection_ (snd result) = (tt, snd result).
Proof.
  intros Havail Huri Hinit Hopen Hurl Hwav Hmp3 Hflac result. subst result.
  apply nonempty_uri in Huri.
  unfold staging_available, allocation_events, teardown_events in *.
  open_world w.
  destruct transfer_buffer_0 as [buf|]; destruct client_0 as [k|];
    step_reader;
    try (destruct Havail as [Habs|Halloc]; [now elim Habs|];
         rewrite Halloc; step_reader);
    cbn [Z.eqb ESP_OK negb]; rewrite Huri, Hinit; step_reader;
    rewrite Hopen; cbn [Z.eqb ESP_OK negb]; step_reader;
    rewrite Hurl; cbn [Z.eqb ESP_OK negb]; rewrite Hwav, Hmp3, Hflac;
    step_reader; rewrite <- ?app_assoc;
    match goal with
    | |- context [new_events ?a ?b] =>
        rewrite (new_events_extension a b _ eq_refl)
    end; repeat split.
Qed.

(** ** Stepping without a session *)

(** Without a session a step never creates one, keeps the recorded memory
    source, and calls nothing but the consumer buffer. *)
Lemma read_without_session (env : StepEnv) (w : World) :
  client_ (reader w) = None ->
  client_ (reader (snd (read env w))) = None
  /\ current_media_file_ (reader (snd (read env w)))
     = current_media_file_ (reader w)
  /\ exists evs, trace (snd (read env w)) = trace w ++ evs
                 /\ no_session_use evs = true.
Proof.
  intros Hc. open_world w. subst.
  destruct current_media_file_0 as [f|]; step_reader.
  - destruct (0 <? transfer_buffer_length_0); step_reader.
    + repeat split. eexists; split; [reflexivity|reflexivity].
    + repeat split. exists []. now rewrite app_nil_r.
  - repeat split. exists []. now rewrite app_nil_r.
Qed.

Lemma no_session_use_app (a b : list event) :
  no_session_use (a ++ b) = no_session_use a && no_session_use b.
Proof. apply forallb_app. Qed.

Lemma run_without_session (envs : list StepEnv) (w : World) :
  client_ (reader w) = None ->
  client_ (reader (run envs w)) = None
  /\ current_media_file_ (reader (run envs w)) = current_media_file_ (reader w)
  /\ exists evs, trace (run envs w) = trace w ++ evs
                 /\ no_session_use evs = true.
Proof.
  revert w; induction envs as [|env rest IH]; intros w Hc; cbn [run].
  - repeat split; auto. exists []. now rewrite app_nil_r.
  - destruct (read_without_session env w Hc) as (Hc1 & Hm1 & evs1 & Ht1 & Hn1).
    destruct (IH _ Hc1) as (Hc2 & Hm2 & evs2 & Ht2 & Hn2).
    repeat split; auto; try congruence.
    exists (evs1 ++ evs2). rewrite Ht2, Ht1, app_assoc, no_session_use_app.
    now rewrite Hn1, Hn2.
Qed.

(** A terminal step taken without a session leaves the world untouched, and
    its result does not depend on the answers of the collaborators. *)
Lemma terminal_without_session (env : StepEnv) (w : World) :
  client_ (reader w) = None ->
  fst (read env w) <> READING ->
  forall env', read env' w = (fst (read env w), w).
Proof.
  intros Hc Hst env'. open_world w. subst.
  destruct current_media_file_0 as [f|]; revert Hst; step_reader.
  - destruct (0 <? transfer_buffer_length_0); step_reader; intros Hst.
    + now elim Hst.
    + reflexivity.
  - reflexivity.
Qed.

Lemma run_fixed (st : AudioReaderState) (w : World) :
  (forall env, read env w = (st, w)) ->
  forall envs, run envs w = w.
Proof.
  intros Hfix envs. induction envs as [|env rest IH]; cbn [run]; auto.
  now rewrite Hfix.
Qed.

(** The session is gone after every terminal step. *)
Lemma terminal_step_without_session_after (env : StepEnv) (w : World) :
  fst (read env w) <> READING ->
  client_ (reader (snd (read env w))) = None
  /\ current_media_file_ (reader (snd (read env w)))
     = current_media_file_ (reader w).
Proof.
  intros Hst. destruct (client_ (reader w)) as [h|] eqn:Hc.
  - destruct (is_complete_answer env) eqn:Hcomplete.
    + rewrite (http_read_complete env w h Hc Hcomplete). split; reflexivity.
    + destruct (Z.lt_ge_cases (read_answer env) 0) as [Hneg|Hpos].
      * rewrite (http_read_error env w h Hc Hcomplete Hneg). split; reflexivity.
      * destruct (http_read_reading env w h Hc Hcomplete Hpos) as (? & Hr & _).
        now elim Hst.
  - destruct (read_without_session env w Hc) as (H1 & H2 & _). now split.
Qed.

(** C5, as the code has it: after a step that returns FINISHED or FAILED the
    session handle is null, and it stays null, with no call that opens or
    uses a session, on every later step.  A terminal state reached without a
    session (FINISHED of the memory path, FAILED with no source) repeats on
    every later step and the world no longer changes; after any terminal step
    of a reader that has no memory source recorded, every later step returns
    FAILED, also when the terminal step returned FINISHED.  The session has
    been released: a terminal step taken while session h is held closes h
    exactly once and releases h exactly once before it returns. *)
Theorem terminal_step_releases_session (env : StepEnv) (w : World) :
  fst (read env w) <> READING ->
  let st := fst (read env w) in
  let w' := snd (read env w) in
  client_ (reader w') = None
  /\ (forall envs,
        client_ (reader (run envs w')) = None
        /\ no_session_use (new_events w' (run envs w')) = true)
  /\ (client_ (reader w) = None ->
      forall envs env', read env' (run envs w') = (st, w'))
  /\ (current_media_file_ (reader w) = None ->
      forall envs env', read env' (run envs w') = (FAILED, w'))
  /\ (forall h,
        client_ (reader w) = Some h ->
        closes (Some h) (new_events w w') = 1%nat
        /\ releases (Some h) (new_events w w') = 1%nat).
Proof.
  intros Hst st w'.
  destruct (terminal_step_without_session_after env w Hst) as [Hc' Hm'].
  fold w' in Hc', Hm'.
  split; [exact Hc'|]. split; [|split; [|split]].
  4:{ intros h Hc. subst w'.
      destruct (is_complete_answer env) eqn:Hcomplete.
      - rewrite (http_read_complete env w h Hc Hcomplete). cbn [snd].
        match goal with
        | |- context [new_events w ?x] =>
            rewrite (new_events_extension w x _ eq_refl)
        end.
        cbn [closes releases handle_eqb]. rewrite Pos.eqb_refl. now split.
      - destruct (Z.lt_ge_cases (read_answer env) 0) as [Hneg|Hpos].
        + rewrite (http_read_error env w h Hc Hcomplete Hneg). cbn [snd].
          match goal with
          | |- context [new_events w ?x] =>
              rewrite (new_events_extension w x _ eq_refl)
          end.
          cbn [closes releases handle_eqb]. rewrite Pos.eqb_refl. now split.
        + destruct (http_read_reading env w h Hc Hcomplete Hpos)
            as (? & Hr & _).
          now elim Hst. }
  - intros envs.
    destruct (run_without_session envs w' Hc') as (Hc2 & _ & evs & Ht & Hn).
    split; [exact Hc2|]. now rewrite (new_events_extension _ _ _ Ht).
  - intros Hc envs env'.
    pose proof (terminal_without_session env w Hc Hst) as Hfix.
    assert (Hw : w' = w).
    { subst w'. now rewrite (Hfix env). }
    rewrite Hw. fold st in Hfix.
    now rewrite (run_fixed st w Hfix envs).
  - intros Hm envs env'.
    assert (Hfix : forall e, read e w' = (FAILED, w')).
    { intros e. apply read_idle; congruence. }
    now rewrite (run_fixed FAILED w' Hfix envs).
Qed.

(** ** The memory path *)

Lemma firstn_length_firstn {A : Type} (a : nat) (l : list A) :
  firstn (List.length (firstn a l)) l = firstn a l.
Proof.
  revert l; induction a as [|a IH]; intros [|x l]; simpl; auto.
  now rewrite IH.
Qed.

Lemma start_file_success (env : StartEnv) (f : media_player.MediaFile)
  (w w1 : World) (ft : media_player.MediaFileType) :
  client_ (reader w) = None ->
  start_file env f w = ((ESP_OK, ft), w1) ->
  ft = media_player.file_type f /\ streaming_file f 0 w1.
Proof.
  intros Hc. open_world w. subst. unfold streaming_file.
  destruct transfer_buffer_0 as [buf|]; step_reader.
  - cbn [Z.eqb ESP_OK negb]. step_reader. intros H; inversion H; subst; clear H.
    cbn. rewrite Z.sub_0_r. repeat split. lia.
  - destruct (allocate_succeeds env); step_reader;
      cbn [Z.eqb ESP_OK ESP_ERR_NO_MEM negb]; step_reader;
      intros H; inversion H; subst; clear H.
    cbn. rewrite Z.sub_0_r. repeat split. lia.
Qed.

(** One step of the memory path with bytes left: READING, and the write
    stores the next [n] bytes of the view, where [n] is what the consumer
    buffer has room for. *)
Lemma file_read_step (env : StepEnv) (f : media_player.MediaFile) (k : nat)
  (w : World) :
  media_player.well_formed f ->
  streaming_file f k w ->
  (k < List.length (media_player.data f))%nat ->
  exists n : nat,
    fst (read env w) = READING
    /\ streaming_file f (k + n) (snd (read env w))
    /\ trace (snd (read env w))
       = trace w ++ [EvRingWrite READ_WRITE_TIMEOUT_MS
                       (firstn n (skipn k (media_player.data f)))]
    /\ (0 < RingBuffer.free
              (RingBuffer.consume (consumed_while_waiting env) (ring w)) ->
        (0 < n)%nat).
Proof.
  intros [Hlen Hrange] (Hc & Hm & Hcur & Hrem & Hk) Hlt.
  destruct f as [d L ty]. cbn [media_player.data media_player.length] in *.
  open_world w. subst. unfold streaming_file.
  cbn [media_player.data media_player.length reader ring trace client_
       current_media_file_ transfer_buffer_current_ transfer_buffer_length_].
  set (rest := skipn k d).
  assert (Hrest : List.length rest = (List.length d - k)%nat)
    by (unfold rest; apply length_skipn).
  set (rb := RingBuffer.consume (consumed_while_waiting env) ring0).
  set (a := Z.to_nat (Z.min (Z.of_nat (List.length d) - Z.of_nat k)
                        (RingBuffer.free rb))).
  exists (List.length (firstn a rest)).
  assert (Hpos : (0 <? Z.of_nat (List.length d) - Z.of_nat k) = true)
    by (apply Z.ltb_lt; lia).
  step_reader. rewrite Hpos. step_reader.
  rewrite Nat2Z.id.
  assert (Hsrc : firstn (Z.to_nat (Z.of_nat (List.length d) - Z.of_nat k))
                   (skipn k d) = rest).
  { unfold rest. apply firstn_all2. rewrite length_skipn. lia. }
  rewrite Hsrc. unfold RingBuffer.accepted. fold rb. fold a.
  rewrite Nat2Z.id, firstn_length_firstn.
  assert (Hn : (List.length (firstn a rest) <= List.length d - k)%nat).
  { rewrite length_firstn. lia. }
  repeat split.
  - cbn [option_map base offset]. now rewrite Nat2Z.inj_add.
  - unfold size_t_wrap. rewrite Z.mod_small by lia. lia.
  - lia.
  - intros Hfree. rewrite length_firstn. unfold a. lia.
Qed.

(** One step with nothing left: FINISHED, and the world stays as it is. *)
Lemma file_read_done (env : StepEnv) (f : media_player.MediaFile) (w : World) :
  media_player.well_formed f ->
  streaming_file f (List.length (media_player.data f)) w ->
  read env w = (FINISHED, w).
Proof.
  intros [Hlen Hrange] (Hc & Hm & Hcur & Hrem & Hk).
  open_world w. subst. step_reader.
  replace (media_player.length f
           - Z.of_nat (List.length (media_player.data f))) with 0 by lia.
  reflexivity.
Qed.

(** Any number of steps on the memory path: the reader stays on that path
    and the bytes stored so far are a prefix of the view. *)
Lemma run_streaming_file (envs : list StepEnv) (f : media_player.MediaFile) :
  media_player.well_formed f ->
  forall (k : nat) (w : World),
    streaming_file f k w ->
    exists (k' : nat) (evs : list event),
      (k <= k')%nat
      /\ streaming_file f k' (run envs w)
      /\ trace (run envs w) = trace w ++ evs
      /\ firstn k (media_player.data f) ++ forwarded evs
         = firstn k' (media_player.data f).
Proof.
  intros Hwf. induction envs as [|env rest IH]; intros k w Hs; cbn [run].
  - exists k, []. rewrite !app_nil_r. auto.
  - assert (Hk : (k <= List.length (media_player.data f))%nat) by apply Hs.
    destruct (Nat.eq_dec k (List.length (media_player.data f))) as [->|Hne].
    + rewrite (file_read_done env f w Hwf Hs). cbn [snd]. now apply IH.
    + destruct (file_read_step env f k w Hwf Hs ltac:(lia))
        as (n & _ & Hs' & Htr & _).
      destruct (IH _ _ Hs') as (k' & evs & Hle & Hs'' & Htr' & Hfw).
      exists k', (EvRingWrite READ_WRITE_TIMEOUT_MS
                    (firstn n (skipn k (media_player.data f))) :: evs).
      split; [lia|]. split; [exact Hs''|]. split.
      * rewrite Htr', Htr, <- app_assoc. reflexivity.
      * cbn [forwarded]. now rewrite app_assoc, firstn_skipn_firstn.
Qed.

(** While the consumer leaves room, every step moves the cursor on. *)
Lemma run_responsive (envs : list StepEnv) (f : media_player.MediaFile) :
  media_player.well_formed f ->
  forall (k : nat) (w : World),
    streaming_file f k w ->
    responsive envs w ->
    exists k' : nat,
      streaming_file f k' (run envs w)
      /\ (Nat.min (List.length (media_player.data f)) (k + List.length envs)
          <= k')%nat.
Proof.
  intros Hwf. induction envs as [|env rest IH]; intros k w Hs Hresp;
    cbn [run List.length].
  - exists k. split; auto. lia.
  - destruct Hresp as [Hroom Hresp].
    assert (Hk : (k <= List.length (media_player.data f))%nat) by apply Hs.
    destruct (Nat.eq_dec k (List.length (media_player.data f))) as [->|Hne].
    + rewrite (file_read_done env f w Hwf Hs) in *. cbn [snd] in *.
      destruct (IH _ _ Hs Hresp) as (k' & Hs' & Hle).
      exists k'. split; auto. lia.
    + destruct (file_read_step env f k w Hwf Hs ltac:(lia))
        as (n & _ & Hs' & _ & Hn).
      specialize (Hn Hroom).
      destruct (IH _ _ Hs' Hresp) as (k' & Hs'' & Hle).
      exists k'. split; auto. lia.
Qed.

(** A step on the memory path returns FINISHED only at the end of the view. *)
Lemma file_read_finished_inv (env : StepEnv) (f : media_player.MediaFile)
  (k : nat) (w : World) :
  media_player.well_formed f ->
  streaming_file f k w ->
  fst (read env w) = FINISHED ->
  k = List.length (media_player.data f).
Proof.
  intros Hwf Hs Hfin.
  assert (Hk : (k <= List.length (media_player.data f))%nat) by apply Hs.
  destruct (Nat.eq_dec k (List.length (media_player.data f))) as [|Hne]; auto.
  destruct (file_read_step env f k w Hwf Hs ltac:(lia)) as (n & Hr & _).
  congruence.
Qed.

(** One step of the memory path with bytes left, with the amount stored. *)
Lemma file_read_step_exact
  (env : StepEnv) (f : media_player.MediaFile) (k : nat) (w : World) :
  media_player.well_formed f ->
  streaming_file f k w ->
  (k < List.length (media_player.data f))%nat ->
  let waited := RingBuffer.consume (consumed_while_waiting env) (ring w) in
  let n := Z.to_nat (Z.min (media_player.length f - Z.of_nat k)
                       (RingBuffer.free waited)) in
  let stored := firstn n (skipn k (media_player.data f)) in
  let w' := snd (read env w) in
  fst (read env w) = READING
  /\ streaming_file f (k + n) w'
  /\ List.length stored = n
  /\ new_events w w' = [EvRingWrite READ_WRITE_TIMEOUT_MS stored]
  /\ ring w' = {| RingBuffer.capacity := RingBuffer.capacity (ring w);
                  RingBuffer.unread := RingBuffer.unread waited ++ stored |}.
Proof.
  intros [Hlen Hrange] (Hc & Hm & Hcur & Hrem & Hk) Hlt waited n stored w'.
  subst w' stored n waited.
  destruct f as [d L ty]. cbn [media_player.data media_player.length] in *.
  open_world w. subst. unfold streaming_file.
  cbn [media_player.data media_player.length reader ring trace client_
       current_media_file_ transfer_buffer_current_ transfer_buffer_length_].
  set (rest := skipn k d).
  assert (Hrest : List.length rest = (List.length d - k)%nat)
    by (unfold rest; apply length_skipn).
  set (rb := RingBuffer.consume (consumed_while_waiting env) ring0).
  set (a := Z.to_nat (Z.min (Z.of_nat (List.length d) - Z.of_nat k)
                        (RingBuffer.free rb))).
  assert (Ha : (a <= List.length d - k)%nat) by (unfold a; lia).
  assert (Hpos : (0 <? Z.of_nat (List.length d) - Z.of_nat k) = true)
    by (apply Z.ltb_lt; lia).
  assert (Hstored : List.length (firstn a rest) = a)
    by (rewrite length_firstn; lia).
  step_reader. rewrite Hpos. step_reader.
  rewrite Nat2Z.id.
  assert (Hsrc : firstn (Z.to_nat (Z.of_nat (List.length d) - Z.of_nat k))
                   (skipn k d) = rest).
  { unfold rest. apply firstn_all2. rewrite length_skipn. lia. }
  rewrite Hsrc. unfold RingBuffer.accepted. fold rb. fold a.
  rewrite Nat2Z.id, firstn_length_firstn, Hstored.
  match goal with
  | |- context [new_events ?x ?y] =>
      rewrite (new_events_extension x y _ eq_refl)
  end.
  repeat split.
  - cbn [option_map base offset]. now rewrite Nat2Z.inj_add.
  - unfold size_t_wrap. rewrite Z.mod_small by lia. lia.
  - lia.
Qed.

Lemma forwarded_app (a b : list event) :
  forwarded (a ++ b) = forwarded a ++ forwarded b.
Proof.
  induction a as [|e a IH]; cbn [app forwarded]; auto.
  destruct e; auto. now rewrite IH, app_assoc.
Qed.

(** A step that goes on READING after any number of steps: where the cursor
    stands, what the step appends to the consumer buffer, and what has been
    stored since [start] once it returns. *)
Lemma reading_step_after_run (f : media_player.MediaFile) (w1 : World)
  (envs : list StepEnv) (env : StepEnv) :
  media_player.well_formed f ->
  streaming_file f 0 w1 ->
  fst (read env (run envs w1)) = READING ->
  let w := run envs w1 in
  let k := List.length (forwarded (new_events w1 w)) in
  let waited := RingBuffer.consume (consumed_while_waiting env) (ring w) in
  let n := Z.to_nat (Z.min (media_player.length f - Z.of_nat k)
                       (RingBuffer.free waited)) in
  (k < List.length (media_player.data f))%nat
  /\ forwarded (new_events w1 w) = firstn k (media_player.data f)
  /\ ring (snd (read env w))
     = {| RingBuffer.capacity := RingBuffer.capacity (ring w);
          RingBuffer.unread :=
            RingBuffer.unread waited
            ++ firstn n (skipn k (media_player.data f)) |}
  /\ forwarded (new_events w1 (snd (read env w)))
     = firstn (k + n) (media_player.data f).
Proof.
  intros Hwf Hs Hreading w k waited n.
  destruct (run_streaming_file envs f Hwf 0%nat w1 Hs)
    as (k0 & evs & _ & Hs' & Htr & Hfw).
  fold w in Hs', Htr. cbn [firstn app] in Hfw.
  assert (Hk0 : (k0 <= List.length (media_player.data f))%nat) by apply Hs'.
  assert (Hfwd : forwarded (new_events w1 w) = firstn k0 (media_player.data f))
    by (now rewrite (new_events_extension _ _ _ Htr)).
  assert (Hk : k = k0).
  { subst k. rewrite Hfwd, length_firstn. lia. }
  assert (Hlt : (k0 < List.length (media_player.data f))%nat).
  { destruct (Nat.eq_dec k0 (List.length (media_player.data f))) as [->|Hne];
      [|lia].
    fold w in Hreading. rewrite (file_read_done env f w Hwf Hs') in Hreading.
    discriminate. }
  destruct (file_read_step_exact env f k0 w Hwf Hs' Hlt)
    as (_ & _ & _ & Hnew & Hring).
  destruct (file_read_step env f k0 w Hwf Hs' Hlt) as (n0 & _ & _ & Htr' & _).
  cbv zeta in Hnew, Hring.
  rewrite (new_events_extension _ _ _ Htr') in Hnew.
  rewrite Hnew in Htr'.
  subst n waited. rewrite Hk.
  split; [exact Hlt|]. split; [exact Hfwd|]. split; [exact Hring|].
  assert (Hall : trace (snd (read env w))
                 = trace w1 ++ evs
                   ++ [EvRingWrite READ_WRITE_TIMEOUT_MS
                         (firstn
                            (Z.to_nat
                               (Z.min (media_player.length f - Z.of_nat k0)
                                  (RingBuffer.free
                                     (RingBuffer.consume
                                        (consumed_while_waiting env)
                                        (ring w)))))
                            (skipn k0 (media_player.data f)))])
    by (now rewrite Htr', Htr, <- app_assoc).
  rewrite (new_events_extension _ _ _ Hall), forwarded_app, Hfw.
  cbn [forwarded]. now rewrite app_nil_r, firstn_skipn_firstn.
Qed.

(** C3: after a successful [start] on a memory source (no session around,
    staging buffer of any size), the bytes stored into the consumer buffer
    are at every moment a prefix of the view; when a step returns FINISHED
    they are exactly the whole view, all L bytes in order, and from then on
    every step returns FINISHED and leaves the world, consumer buffer
    included, as it is.  FINISHED is reached: if the consumer leaves room for
    one byte at every write, a step after L steps returns FINISHED.  The
    bytes reach the consumer buffer: every step that returns READING appends
    to what the consumer left in the buffer the next n bytes of the view,
    n = min(bytes left, room), starting at byte k, where k is the number of
    bytes stored before the step. *)
Theorem file_read_forwards_whole_view
  (senv : StartEnv) (f : media_player.MediaFile) (w0 w1 : World)
  (ft : media_player.MediaFileType) :
  media_player.well_formed f ->
  client_ (reader w0) = None ->
  start_file senv f w0 = ((ESP_OK, ft), w1) ->
  (forall envs, exists k : nat,
      forwarded (new_events w1 (run envs w1))
      = firstn k (media_player.data f))
  /\ (forall envs env,
        fst (read env (run envs w1)) = FINISHED ->
        forwarded (new_events w1 (run envs w1)) = media_player.data f
        /\ forall envs' env',
             read env' (run envs' (run envs w1)) = (FINISHED, run envs w1))
  /\ (forall envs env,
        responsive envs w1 ->
        (List.length (media_player.data f) <= List.length envs)%nat ->
        fst (read env (run envs w1)) = FINISHED)
  /\ (forall envs env,
        fst (read env (run envs w1)) = READING ->
        let w := run envs w1 in
        let k := List.length (forwarded (new_events w1 w)) in
        let waited :=
          RingBuffer.consume (consumed_while_waiting env) (ring w) in
        let n := Z.to_nat (Z.min (media_player.length f - Z.of_nat k)
                             (RingBuffer.free waited)) in
        (k < List.length (media_player.data f))%nat
        /\ forwarded (new_events w1 w) = firstn k (media_player.data f)
        /\ ring (snd (read env w))
           = {| RingBuffer.capacity := RingBuffer.capacity (ring w);
                RingBuffer.unread :=
                  RingBuffer.unread waited
                  ++ firstn n (skipn k (media_player.data f)) |}
        /\ forwarded (new_events w1 (snd (read env w)))
           = firstn (k + n) (media_player.data f)).
Proof.
  intros Hwf Hc Hstart.
  destruct (start_file_success senv f w0 w1 ft Hc Hstart) as [_ Hs].
  split; [|split; [|split]].
  4:{ intros envs env Hreading.
      exact (reading_step_after_run f w1 envs env Hwf Hs Hreading). }
  - intros envs.
    destruct (run_streaming_file envs f Hwf 0%nat w1 Hs)
      as (k & evs & _ & _ & Htr & Hfw).
    exists k. now rewrite (new_events_extension _ _ _ Htr).
  - intros envs env Hfin.
    destruct (run_streaming_file envs f Hwf 0%nat w1 Hs)
      as (k & evs & _ & Hs' & Htr & Hfw).
    pose proof (file_read_finished_inv env f k _ Hwf Hs' Hfin) as ->.
    split.
    + rewrite (new_events_extension _ _ _ Htr).
      cbn [firstn app] in Hfw. now rewrite Hfw, firstn_all.
    + intros envs' env'.
      assert (Hfix : forall e, read e (run envs w1) = (FINISHED, run envs w1))
        by (intros e; now apply (file_read_done e f)).
      now rewrite (run_fixed FINISHED _ Hfix envs').
  - intros envs env Hresp Hlong.
    destruct (run_responsive envs f Hwf 0%nat w1 Hs Hresp) as (k & Hs' & Hle).
    assert (Hk : (k <= List.length (media_player.data f))%nat) by apply Hs'.
    assert (k = List.length (media_player.data f)) as -> by lia.
    now rewrite (file_read_done env f _ Hwf Hs').
Qed.

Lemma file_read_forwards_whole_view_witness :
  media_player.well_formed chime
  /\ forwarded (new_events chime_world
                  (run [draining_step; draining_step] chime_world))
     = media_player.data chime
  /\ ring (snd (read draining_step (run [draining_step] chime_world)))
     = {| RingBuffer.capacity := 4; RingBuffer.unread := [Byte.x00] |}.
Proof.
  assert (Hwf : media_player.well_formed chime)
    by (split; reflexivity).
  split; [exact Hwf|].
  pose proof (file_read_forwards_whole_view mp3_start chime
                (new_world small_ring 64) chime_world
                media_player.WAV Hwf eq_refl eq_refl) as H.
  split.
  - apply (proj1 (proj2 H) [draining_step; draining_step] idle_step eq_refl).
  - exact (proj1 (proj2 (proj2 (proj2 (proj2 (proj2 H)) [draining_step]
                                   draining_step eq_refl)))).
Defined.

(** ** Concrete runs *)

(** C1 at a concrete run: [start] on a memory source while the session of an
    earlier [start] on a URI is open.  The call succeeds, makes no boundary
    call at all, and leaves the session handle in place next to the memory
    source; the next step still polls the old session and forwards nothing of
    the memory source. *)
Theorem start_file_keeps_open_session :
  let w1 := streaming_world small_ring in
  let result := start_file mp3_start chime w1 in
  client_ (reader w1) = Some 1%positive
  /\ fst result = (ESP_OK, media_player.WAV)
  /\ client_ (reader (snd result)) = Some 1%positive
  /\ current_media_file_ (reader (snd result)) = Some chime
  /\ new_events w1 (snd result) = []
  /\ new_events (snd result) (snd (read idle_step (snd result)))
     = [EvHttpIsComplete (Some 1%positive); EvRingFree;
        EvHttpRead (Some 1%positive) 4; EvDelay 20].
Proof. vm_compute. repeat split. Qed.

(** C2 at a concrete run: the header fetch answers -1, the URL is read back
    and ends in .mp3.  [start] returns ESP_OK with file type MP3, the session
    handle stays set, and the session was neither closed nor released. *)
Theorem start_uri_ignores_failed_header_fetch :
  let result :=
    start_uri headers_failed_start "http://host/a.mp3"
      (new_world small_ring 64) in
  fetch_headers_answer headers_failed_start = -1
  /\ fst result = (ESP_OK, media_player.MP3)
  /\ client_ (reader (snd result)) = Some 1%positive
  /\ closes (Some 1%positive) (trace (snd result)) = 0%nat
  /\ releases (Some 1%positive) (trace (snd result)) = 0%nat.
Proof. vm_compute. repeat split. Qed.

(** Against C4 as worded: the consumer buffer is full, and the network step
    still issues a session read, for 0 bytes. *)
Lemma full_consumer_buffer_read_still_issued :
  let w := streaming_world full_ring in
  RingBuffer.free (ring w) = 0
  /\ fst (read idle_step w) = READING
  /\ read_requests (new_events w (snd (read idle_step w))) = [0].
Proof. vm_compute. repeat split. Qed.

(** Against C5 as worded: on a reader that only ever had a network source,
    the step after FINISHED returns FAILED. *)
Lemma finished_is_followed_by_failed :
  let w := streaming_world small_ring in
  fst (read complete_step w) = FINISHED
  /\ fst (read idle_step (snd (read complete_step w))) = FAILED.
Proof. vm_compute. repeat split. Qed.

(** ** Instances of the general statements *)

Lemma http_read_requests_quota_witness :
  client_ (reader (streaming_world small_ring)) = Some 1%positive
  /\ read_requests
       (new_events (streaming_world small_ring)
          (snd (read idle_step (streaming_world small_ring))))
     = [read_quota idle_step (streaming_world small_ring)].
Proof.
  split; [reflexivity|].
  apply (proj1 (proj2 (http_read_requests_quota idle_step
                         (streaming_world small_ring) 1%positive eq_refl))).
  reflexivity.
Defined.

Lemma terminal_step_releases_session_witness :
  fst (read complete_step (streaming_world small_ring)) = FINISHED
  /\ client_ (reader (snd (read complete_step (streaming_world small_ring))))
     = None
  /\ releases (Some 1%positive)
       (new_events (streaming_world small_ring)
          (snd (read complete_step (streaming_world small_ring)))) = 1%nat.
Proof.
  split; [reflexivity|].
  assert (Hterm : fst (read complete_step (streaming_world small_ring))
                  <> READING) by (vm_compute; discriminate).
  pose proof (terminal_step_releases_session complete_step
                (streaming_world small_ring) Hterm) as H.
  cbv zeta in H.
  split; [exact (proj1 H)|].
  exact (proj2 (proj2 (proj2 (proj2 (proj2 H))) 1%positive eq_refl)).
Defined.

Lemma http_read_negative_releases_once_witness :
  read_answer failing_step < 0
  /\ fst (read failing_step (streaming_world small_ring)) = FAILED
  /\ releases (Some 1%positive)
       (new_events (streaming_world small_ring)
          (snd (read failing_step (streaming_world small_ring)))) = 1%nat.
Proof.
  pose proof (http_read_negative_releases_once failing_step
                (streaming_world small_ring) 1%positive
                eq_refl eq_refl eq_refl) as H.
  cbv zeta in H.
  split; [reflexivity|].
  split; [exact (proj1 H) | exact (proj1 (proj2 (proj2 (proj2 H))))].
Defined.

Lemma http_read_pacing_witness :
  fst (read idle_step (streaming_world small_ring)) = READING
  /\ delays (new_events (streaming_world small_ring)
               (snd (read idle_step (streaming_world small_ring)))) = [20].
Proof.
  split; [reflexivity|].
  assert (Hsize : 0 <= transfer_buffer_size_
                         (reader (streaming_world small_ring)) < 2 ^ 29)
    by (change (0 <= 64 < 2 ^ 29); lia).
  assert (Hle : read_answer idle_step
                <= transfer_buffer_size_ (reader (streaming_world small_ring)))
    by (change (0 <= 64); lia).
  apply (proj1 (http_read_pacing idle_step (streaming_world small_ring)
                  1%positive eq_refl eq_refl Hsize Hle)).
  change (0 * 4 < 64 * 3). lia.
Defined.

Lemma start_uri_empty_is_invalid_argument_witness :
  staging_available mp3_start (new_world small_ring 64)
  /\ fst (start_uri mp3_start EmptyString (new_world small_ring 64))
     = (ESP_ERR_INVALID_ARG, media_player.NONE).
Proof.
  assert (Havail : staging_available mp3_start (new_world small_ring 64))
    by (right; reflexivity).
  split; [exact Havail|].
  apply (proj1 (start_uri_empty_is_invalid_argument mp3_start
                  (new_world small_ring 64) Havail)).
Defined.

Lemma start_uri_unsupported_suffix_witness :
  str_endswith "http://host/a.ogg" ".flac" = false
  /\ fst (start_uri ogg_start "http://host/a.ogg" (new_world small_ring 64))
     = (ESP_ERR_NOT_SUPPORTED, media_player.NONE).
Proof.
  split; [reflexivity|].
  assert (Huri : "http://host/a.ogg"%string <> EmptyString) by discriminate.
  apply (proj1 (start_uri_unsupported_suffix ogg_start
                  "http://host/a.ogg" "http://host/a.ogg"
                  (new_world small_ring 64) 1%positive
                  (or_intror eq_refl) Huri
                  eq_refl eq_refl eq_refl eq_refl eq_refl eq_refl)).
Defined.

(** * Further properties of the reader *)

(** ** What a single call changes *)

Lemma count_app (p : event -> bool) (a b : list event) :
  count p (a ++ b) = (count p a + count p b)%nat.
Proof. unfold count. now rewrite filter_app, length_app. Qed.

Ltac finish_effects :=
  step_reader; unfold call_effects; step_reader;
  eexists;
  (split; [first [ rewrite <- ?app_assoc; cbn [app]; reflexivity
                 | symmetry; apply app_nil_r ]|]);
  cbn [count filter List.length is_allocation is_open is_close is_release
       alive read_requests Nat.add option_map];
  repeat split; try congruence; try discriminate;
  try (intros; congruence);
  try match goal with
      | H : ?b <> None |- option_map _ ?b <> None =>
          destruct b; [discriminate | now elim H]
      end;
  try apply Forall_nil;
  try (apply Forall_cons;
       [rewrite ?quota_is_min; apply Z.le_min_l | apply Forall_nil]).

Lemma read_effects (env : StepEnv) (w : World) :
  exists evs, call_effects w (snd (read env w)) evs.
Proof.
  open_world w. destruct client_0 as [h|].
  - step_reader. destruct (is_complete_answer env); [finish_effects|].
    step_reader. destruct (read_answer env <? 0); [finish_effects|].
    destruct (0 <? read_answer env); step_reader;
      match goal with
      | |- context [size_t_wrap (int_wrap ?a) <? size_t_wrap ?b] =>
          destruct (size_t_wrap (int_wrap a) <? size_t_wrap b)
      end; finish_effects.
  - destruct current_media_file_0 as [f|]; [|finish_effects].
    step_reader. destruct (0 <? transfer_buffer_length_0); finish_effects.
Qed.

Lemma start_file_effects (env : StartEnv) (f : media_player.MediaFile)
  (w : World) :
  exists evs, call_effects w (snd (start_file env f w)) evs.
Proof.
  open_world w. destruct transfer_buffer_0 as [buf|].
  - step_reader. cbn [Z.eqb ESP_OK negb]. finish_effects.
  - step_reader. destruct (allocate_succeeds env); step_reader;
      cbn [Z.eqb ESP_OK ESP_ERR_NO_MEM negb]; finish_effects.
Qed.

Lemma start_uri_effects (env : StartEnv) (uri : string) (w : World) :
  exists evs, call_effects w (snd (start_uri env uri w)) evs.
Proof.
  destruct env as [al ini op fh [gerr gurl] st].
  open_world w.
  assert (Hgo :
    forall buf tr,
      exists evs,
        call_effects
          {| reader :=
               {| transfer_buffer_size_ := transfer_buffer_size_0;
                  transfer_buffer_ := Some buf;
                  current_media_file_ := current_media_file_0;
                  transfer_buffer_current_ := transfer_buffer_current_0;
                  transfer_buffer_length_ := transfer_buffer_length_0;
                  client_ := client_0 |};
             ring := ring0; trace := tr |}
          (snd (start_uri
                  {| allocate_succeeds := al; init_answer := ini;
                     open_answer := op; fetch_headers_answer := fh;
                     get_url_answer := (gerr, gurl);
                     set_timeout_answer := st |} uri
                  {| reader :=
                       {| transfer_buffer_size_ := transfer_buffer_size_0;
                          transfer_buffer_ := Some buf;
                          current_media_file_ := current_media_file_0;
                          transfer_buffer_current_ := transfer_buffer_current_0;
                          transfer_buffer_length_ := transfer_buffer_length_0;
                          client_ := client_0 |};
                     ring := ring0; trace := tr |})) evs).
  { intros buf tr. step_reader.
    cbn [Z.eqb ESP_OK negb allocate_succeeds init_answer open_answer
         fetch_headers_answer get_url_answer set_timeout_answer].
    destruct client_0 as [k|]; step_reader;
      (destruct (String.eqb uri EmptyString); [finish_effects|]);
      (destruct ini as [h|]; [|finish_effects]); step_reader;
      (destruct (op =? ESP_OK); cbn [negb]; [|finish_effects]); step_reader;
      (destruct (gerr =? ESP_OK); cbn [negb]; [|finish_effects]);
      (destruct (str_endswith gurl ".wav");
       [| destruct (str_endswith gurl ".mp3");
          [| destruct (str_endswith gurl ".flac"); [|finish_effects]]]);
      step_reader; destruct (st =? ESP_OK); cbn [negb]; finish_effects. }
  destruct transfer_buffer_0 as [buf|]; [apply Hgo|].
  destruct al.
  - destruct (Hgo (repeat Byte.x00 (Z.to_nat transfer_buffer_size_0))
                (trace0 ++ [EvAllocate transfer_buffer_size_0]))
      as (evs & Ht & Hs & _ & Hq & Hbal & Hcl).
    exists (EvAllocate transfer_buffer_size_0 :: evs).
    unfold call_effects in *.
    match type of Ht with
    | trace (snd ?a) = _ =>
        match goal with
        | |- trace (snd ?b) = _ /\ _ => change b with a
        end
    end.
    cbn [reader ring trace transfer_buffer_size_ transfer_buffer_ client_] in *.
    split; [now rewrite Ht, <- app_assoc|].
    split; [exact Hs|]. split; [intros Habs; now elim Habs|].
    split; [exact Hq|]. split; [exact Hbal | exact Hcl].
  - step_reader.
    cbn [Z.eqb ESP_OK ESP_ERR_NO_MEM negb allocate_succeeds]. finish_effects.
Qed.

Lemma perform_effects (c : call) (w : World) :
  exists evs, call_effects w (perform c w) evs.
Proof.
  destruct c; cbn [perform].
  - apply start_file_effects.
  - apply start_uri_effects.
  - apply read_effects.
Qed.

(** The same facts for a whole sequence of calls. *)
Lemma perform_all_effects (cs : list call) (w : World) :
  exists evs, call_effects w (perform_all cs w) evs.
Proof.
  revert w; induction cs as [|c rest IH]; intros w; cbn [perform_all].
  - exists []. unfold call_effects. rewrite app_nil_r.
    repeat split; auto.
  - destruct (perform_effects c w) as (e1 & Ht1 & Hs1 & Hb1 & Hq1 & Hl1 & Hc1).
    destruct (IH (perform c w)) as (e2 & Ht2 & Hs2 & Hb2 & Hq2 & Hl2 & Hc2).
    exists (e1 ++ e2). unfold call_effects.
    rewrite !count_app, read_requests_app.
    split; [now rewrite Ht2, Ht1, app_assoc|].
    split; [congruence|].
    split.
    { intros Hbuf. destruct (Hb1 Hbuf) as [Hbuf1 Ha1].
      destruct (Hb2 Hbuf1) as [Hbuf2 Ha2].
      split; [exact Hbuf2|]. lia. }
    split.
    { apply Forall_app. split; [exact Hq1|]. now rewrite <- Hs1. }
    split; lia.
Qed.

(** ** The account of each session *)

Lemma opens_app (h : esp_http_client_handle_t) (a b : list event) :
  opens h (a ++ b) = (opens h a + opens h b)%nat.
Proof.
  induction a as [|e a IH]; cbn [app opens]; auto.
  destruct e; auto. rewrite IH. lia.
Qed.

Lemma closes_app (h : esp_http_client_handle_t) (a b : list event) :
  closes h (a ++ b) = (closes h a + closes h b)%nat.
Proof.
  induction a as [|e a IH]; cbn [app closes]; auto.
  destruct e; auto. rewrite IH. lia.
Qed.

Lemma releases_app (h : esp_http_client_handle_t) (a b : list event) :
  releases h (a ++ b) = (releases h a + releases h b)%nat.
Proof.
  induction a as [|e a IH]; cbn [app releases]; auto.
  destruct e; auto. rewrite IH. lia.
Qed.

Ltac finish_account :=
  step_reader; unfold session_account; step_reader;
  eexists;
  (split; [first [ rewrite <- ?app_assoc; cbn [app]; reflexivity
                 | symmetry; apply app_nil_r ]|]);
  cbn [opens closes releases handle_eqb held Nat.add];
  repeat match goal with
         | |- context [Pos.eqb ?a ?b] => destruct (Pos.eqb a b)
         end;
  split; reflexivity.

Lemma read_account (k : positive) (env : StepEnv) (w : World) :
  exists evs, session_account k w (snd (read env w)) evs.
Proof.
  open_world w. destruct client_0 as [h|].
  - step_reader. destruct (is_complete_answer env); [finish_account|].
    step_reader. destruct (read_answer env <? 0); [finish_account|].
    destruct (0 <? read_answer env); step_reader;
      match goal with
      | |- context [size_t_wrap (int_wrap ?a) <? size_t_wrap ?b] =>
          destruct (size_t_wrap (int_wrap a) <? size_t_wrap b)
      end; finish_account.
  - destruct current_media_file_0 as [f|]; [|finish_account].
    step_reader. destruct (0 <? transfer_buffer_length_0); finish_account.
Qed.

Lemma start_file_account (k : positive) (env : StartEnv)
  (f : media_player.MediaFile) (w : World) :
  exists evs, session_account k w (snd (start_file env f w)) evs.
Proof.
  open_world w. destruct transfer_buffer_0 as [buf|].
  - step_reader. cbn [Z.eqb ESP_OK negb]. finish_account.
  - step_reader. destruct (allocate_succeeds env); step_reader;
      cbn [Z.eqb ESP_OK ESP_ERR_NO_MEM negb]; finish_account.
Qed.

Lemma start_uri_account (k : positive) (env : StartEnv) (uri : string)
  (w : World) :
  exists evs, session_account k w (snd (start_uri env uri w)) evs.
Proof.
  destruct env as [al ini op fh [gerr gurl] st].
  open_world w.
  assert (Hgo :
    forall buf tr,
      exists evs,
        session_account k
          {| reader :=
               {| transfer_buffer_size_ := transfer_buffer_size_0;
                  transfer_buffer_ := Some buf;
                  current_media_file_ := current_media_file_0;
                  transfer_buffer_current_ := transfer_buffer_current_0;
                  transfer_buffer_length_ := transfer_buffer_length_0;
                  client_ := client_0 |};
             ring := ring0; trace := tr |}
          (snd (start_uri
                  {| allocate_succeeds := al; init_answer := ini;
                     open_answer := op; fetch_headers_answer := fh;
                     get_url_answer := (gerr, gurl);
                     set_timeout_answer := st |} uri
                  {| reader :=
                       {| transfer_buffer_size_ := transfer_buffer_size_0;
                          transfer_buffer_ := Some buf;
                          current_media_file_ := current_media_file_0;
                          transfer_buffer_current_ := transfer_buffer_current_0;
                          transfer_buffer_length_ := transfer_buffer_length_0;
                          client_ := client_0 |};
                     ring := ring0; trace := tr |})) evs).
  { intros buf tr. step_reader.
    cbn [Z.eqb ESP_OK negb allocate_succeeds init_answer open_answer
         fetch_headers_answer get_url_answer set_timeout_answer].
    destruct client_0 as [j|]; step_reader;
      (destruct (String.eqb uri EmptyString); [finish_account|]);
      (destruct ini as [h|]; [|finish_account]); step_reader;
      (destruct (op =? ESP_OK); cbn [negb]; [|finish_account]); step_reader;
      (destruct (gerr =? ESP_OK); cbn [negb]; [|finish_account]);
      (destruct (str_endswith gurl ".wav");
       [| destruct (str_endswith gurl ".mp3");
          [| destruct (str_endswith gurl ".flac"); [|finish_account]]]);
      step_reader; destruct (st =? ESP_OK); cbn [negb]; finish_account. }
  destruct transfer_buffer_0 as [buf|]; [apply Hgo|].
  destruct al.
  - destruct (Hgo (repeat Byte.x00 (Z.to_nat transfer_buffer_size_0))
                (trace0 ++ [EvAllocate transfer_buffer_size_0]))
      as (evs & Ht & Hbal & Hcl).
    exists (EvAllocate transfer_buffer_size_0 :: evs).
    unfold session_account in *.
    match type of Ht with
    | trace (snd ?a) = _ =>
        match goal with
        | |- trace (snd ?b) = _ /\ _ => change b with a
        end
    end.
    cbn [reader ring trace client_] in *.
    split; [now rewrite Ht, <- app_assoc|].
    split; [exact Hbal | exact Hcl].
  - step_reader.
    cbn [Z.eqb ESP_OK ESP_ERR_NO_MEM negb allocate_succeeds]. finish_account.
Qed.

Lemma perform_account (k : positive) (c : call) (w : World) :
  exists evs, session_account k w (perform c w) evs.
Proof.
  destruct c; cbn [perform].
  - apply start_file_account.
  - apply start_uri_account.
  - apply read_account.
Qed.

Lemma perform_all_account (k : positive) (cs : list call) (w : World) :
  exists evs, session_account k w (perform_all cs w) evs.
Proof.
  revert w; induction cs as [|c rest IH]; intros w; cbn [perform_all].
  - exists []. unfold session_account. rewrite app_nil_r. repeat split.
  - destruct (perform_account k c w) as (e1 & Ht1 & Hb1 & Hc1).
    destruct (IH (perform c w)) as (e2 & Ht2 & Hb2 & Hc2).
    exists (e1 ++ e2). unfold session_account.
    rewrite opens_app, closes_app, releases_app.
    split; [now rewrite Ht2, Ht1, app_assoc|]. split; lia.
Qed.

(** ** Invariants over arbitrary sequences of calls *)

Lemma destroy_trace (w : World) :
  trace (snd (AudioReader_destroy w))
  = trace w ++ teardown_events (client_ (reader w))
  /\ client_ (reader (snd (AudioReader_destroy w))) = None.
Proof.
  open_world w. unfold AudioReader_destroy, teardown_events.
  destruct client_0 as [h|]; step_reader.
  - now rewrite <- app_assoc.
  - now rewrite app_nil_r.
Qed.

(** X1: a reader never holds more than one session and never loses one.
    After any sequence of [start] and [read] calls on a fresh reader, the
    sessions opened so far are the sessions released so far plus the one
    still held (if any), and every release came with a close; after the
    destructor, every session that was opened has been closed and released,
    and the handle is null.  This holds session by session: each handle k
    has been opened as often as it has been released, plus once if it is the
    handle held; it has been closed as often as released; and after the
    destructor it has been closed and released as often as it was opened. *)
Theorem sessions_never_leak
  (rb : RingBuffer.t) (size : Z) (cs : list call) :
  let w := perform_all cs (new_world rb size) in
  let w' := snd (AudioReader_destroy w) in
  (count is_open (trace w)
   = count is_release (trace w) + alive (client_ (reader w)))%nat
  /\ count is_close (trace w) = count is_release (trace w)
  /\ count is_open (trace w') = count is_release (trace w')
  /\ count is_close (trace w') = count is_release (trace w')
  /\ client_ (reader w') = None
  /\ (forall k : positive,
        (opens (Some k) (trace w)
         = releases (Some k) (trace w) + held k (client_ (reader w)))%nat
        /\ closes (Some k) (trace w) = releases (Some k) (trace w)
        /\ opens (Some k) (trace w') = releases (Some k) (trace w')
        /\ closes (Some k) (trace w') = releases (Some k) (trace w')).
Proof.
  intros w w'.
  destruct (perform_all_effects cs (new_world rb size))
    as (evs & Ht & _ & _ & _ & Hbal & Hcl).
  fold w in Ht, Hbal. cbn [new_world reader trace client_ AudioReader_new
                             alive app] in Ht, Hbal.
  destruct (destroy_trace w) as [Hd Hnull]. fold w' in Hd, Hnull.
  assert (Hper : forall k : positive,
             (opens (Some k) (trace w)
              = releases (Some k) (trace w) + held k (client_ (reader w)))%nat
             /\ closes (Some k) (trace w) = releases (Some k) (trace w)
             /\ opens (Some k) (trace w') = releases (Some k) (trace w')
             /\ closes (Some k) (trace w') = releases (Some k) (trace w')).
  { intros k.
    destruct (perform_all_account k cs (new_world rb size))
      as (ev & Hta & Hba & Hca).
    fold w in Hta, Hba.
    cbn [new_world reader trace client_ AudioReader_new held app] in Hta, Hba.
    rewrite Hd, opens_app, closes_app, releases_app, Hta.
    split; [lia|]. split; [exact Hca|].
    unfold teardown_events. destruct (client_ (reader w)) as [j|];
      cbn [opens closes releases handle_eqb held] in *;
      [destruct (Pos.eqb j k)|]; split; lia. }
  assert (Hall : (count is_open (trace w)
                  = count is_release (trace w) + alive (client_ (reader w)))%nat
                 /\ count is_close (trace w) = count is_release (trace w)
                 /\ count is_open (trace w') = count is_release (trace w')
                 /\ count is_close (trace w') = count is_release (trace w')).
  { rewrite Hd, !count_app, Ht.
    split; [lia|]. split; [exact Hcl|].
    unfold teardown_events. destruct (client_ (reader w));
      cbn [count filter List.length is_open is_close is_release alive] in *;
      split; lia. }
  destruct Hall as (H1 & H2 & H3 & H4).
  exact (conj H1 (conj H2 (conj H3 (conj H4 (conj Hnull Hper))))).
Qed.

(** X2: the staging buffer is allocated at most once and never resized.
    Once it exists, no sequence of [start] and [read] calls asks the
    allocator again, the buffer stays in place and the capacity keeps its
    value. *)
Theorem staging_buffer_allocated_once (cs : list call) (w : World) :
  transfer_buffer_ (reader w) <> None ->
  let w' := perform_all cs w in
  transfer_buffer_ (reader w') <> None
  /\ transfer_buffer_size_ (reader w') = transfer_buffer_size_ (reader w)
  /\ count is_allocation (new_events w w') = 0%nat.
Proof.
  intros Hbuf w'. subst w'.
  destruct (perform_all_effects cs w) as (evs & Ht & Hs & Hb & _).
  destruct (Hb Hbuf) as [Hbuf' Hcount].
  rewrite (new_events_extension _ _ _ Ht). auto.
Qed.

Lemma staging_buffer_allocated_once_witness :
  transfer_buffer_ (reader (streaming_world small_ring)) <> None
  /\ count is_allocation
       (new_events (streaming_world small_ring)
          (perform_all [CallRead idle_step; CallStartFile headers_failed_start chime;
                        CallStartUri ogg_start "http://host/a.ogg"]
             (streaming_world small_ring))) = 0%nat.
Proof.
  assert (Hbuf : transfer_buffer_ (reader (streaming_world small_ring)) <> None)
    by (vm_compute; discriminate).
  split; [exact Hbuf|].
  apply (staging_buffer_allocated_once
           [CallRead idle_step; CallStartFile headers_failed_start chime;
            CallStartUri ogg_start "http://host/a.ogg"]
           (streaming_world small_ring) Hbuf).
Defined.

(** X3: no read request ever exceeds the staging capacity: over any sequence
    of [start] and [read] calls, from any state of the reader, every length
    passed to the session read is at most the capacity set at
    construction. *)
Theorem read_requests_within_capacity (cs : list call) (w : World) :
  Forall (fun q => q <= transfer_buffer_size_ (reader w))
    (read_requests (new_events w (perform_all cs w))).
Proof.
  destruct (perform_all_effects cs w) as (evs & Ht & _ & _ & Hq & _).
  now rewrite (new_events_extension _ _ _ Ht).
Qed.

(** ** Allocation failure *)

(** X4: when the staging buffer does not exist and its allocation fails,
    either [start] returns ESP_ERR_NO_MEM with the file type NONE right
    after the allocator call: the reader is left as it was, no source is
    recorded, and a session held from an earlier start is not torn down. *)
Theorem allocation_failure_aborts_start (env : StartEnv) (w : World) :
  transfer_buffer_ (reader w) = None ->
  allocate_succeeds env = false ->
  let w' := {| reader := reader w; ring := ring w;
               trace := trace w
                        ++ [EvAllocate (transfer_buffer_size_ (reader w))] |} in
  (forall media_file,
     start_file env media_file w
     = ((ESP_ERR_NO_MEM, media_player.NONE), w'))
  /\ (forall uri,
        start_uri env uri w = ((ESP_ERR_NO_MEM, media_player.NONE), w')).
Proof.
  intros Hbuf Halloc w'. subst w'. open_world w. subst.
  split; intros; step_reader; rewrite Halloc; reflexivity.
Qed.

Lemma allocation_failure_aborts_start_witness :
  start_uri out_of_memory "http://host/a.mp3" (new_world small_ring 64)
  = ((ESP_ERR_NO_MEM, media_player.NONE),
     {| reader := AudioReader_new 64; ring := small_ring;
        trace := [EvAllocate 64] |}).
Proof.
  apply (proj2 (allocation_failure_aborts_start out_of_memory
                  (new_world small_ring 64) eq_refl eq_refl)).
Defined.

(** ** Cleanup *)

(** X5: [cleanup_connection_] is idempotent.  It closes and releases the
    session held (both calls once, nothing when no session is held), nulls
    the handle and touches nothing else; run again on the result it changes
    nothing. *)
Theorem cleanup_connection_idempotent (w : World) :
  let w1 := snd (cleanup_connection_ w) in
  reader w1 = set_client_ None (reader w)
  /\ ring w1 = ring w
  /\ new_events w w1 = teardown_events (client_ (reader w))
  /\ cleanup_connection_ w1 = (tt, w1).
Proof.
  open_world w. unfold teardown_events.
  destruct client_0 as [h|]; step_reader.
  - rewrite <- app_assoc.
    match goal with
    | |- context [new_events ?a ?b] =>
        rewrite (new_events_extension a b _ eq_refl)
    end. repeat split.
  - rewrite new_events_refl. repeat split.
Qed.

(** ** The outcomes of start on a URI *)

Lemma file_type_of_url_cases (u : string) :
  (str_endswith u ".wav" = true /\ file_type_of_url u = media_player.WAV)
  \/ (str_endswith u ".wav" = false /\ str_endswith u ".mp3" = true
      /\ file_type_of_url u = media_player.MP3)
  \/ (str_endswith u ".wav" = false /\ str_endswith u ".mp3" = false
      /\ str_endswith u ".flac" = true
      /\ file_type_of_url u = media_player.FLAC)
  \/ (str_endswith u ".wav" = false /\ str_endswith u ".mp3" = false
      /\ str_endswith u ".flac" = false
      /\ file_type_of_url u = media_player.NONE).
Proof.
  unfold file_type_of_url.
  destruct (str_endswith u ".wav"); [now left|].
  destruct (str_endswith u ".mp3"); [right; now left|].
  destruct (str_endswith u ".flac"); [right; right; now left|].
  right; right; now right.
Qed.

Ltac step_start :=
  step_reader;
  cbn [allocate_succeeds init_answer open_answer fetch_headers_answer
       get_url_answer set_timeout_answer];
  step_reader.

(** With the staging buffer available, [start] on a URI ends in one of seven
    ways, each fixed by the answers of the session (the answer of the header
    fetch is not among them). *)
Lemma start_uri_outcomes (env : StartEnv) (uri : string) (w : World) :
  staging_available env w ->
  let result := start_uri env uri w in
  let r' := reader (snd result) in
  let ft := file_type_of_url (snd (get_url_answer env)) in
  (uri = EmptyString
   /\ fst result = (ESP_ERR_INVALID_ARG, media_player.NONE)
   /\ client_ r' = None)
  \/ (uri <> EmptyString /\ init_answer env = None
      /\ fst result = (ESP_FAIL, media_player.NONE) /\ client_ r' = None)
  \/ (uri <> EmptyString /\ init_answer env <> None
      /\ open_answer env <> ESP_OK
      /\ fst result = (open_answer env, media_player.NONE)
      /\ client_ r' = None)
  \/ (uri <> EmptyString /\ init_answer env <> None
      /\ open_answer env = ESP_OK /\ fst (get_url_answer env) <> ESP_OK
      /\ fst result = (fst (get_url_answer env), media_player.NONE)
      /\ client_ r' = None)
  \/ (uri <> EmptyString /\ init_answer env <> None
      /\ open_answer env = ESP_OK /\ fst (get_url_answer env) = ESP_OK
      /\ ft = media_player.NONE
      /\ fst result = (ESP_ERR_NOT_SUPPORTED, media_player.NONE)
      /\ client_ r' = None)
  \/ (uri <> EmptyString /\ init_answer env <> None
      /\ open_answer env = ESP_OK /\ fst (get_url_answer env) = ESP_OK
      /\ ft <> media_player.NONE /\ set_timeout_answer env <> ESP_OK
      /\ fst result = (set_timeout_answer env, ft)
      /\ client_ r' = None)
  \/ (uri <> EmptyString /\ init_answer env <> None
      /\ open_answer env = ESP_OK /\ fst (get_url_answer env) = ESP_OK
      /\ ft <> media_player.NONE /\ set_timeout_answer env = ESP_OK
      /\ fst result = (ESP_OK, ft)
      /\ client_ r' = init_answer env
      /\ current_media_file_ r' = current_media_file_ (reader w)
      /\ transfer_buffer_current_ r'
         = Some {| base := StagingBuffer; offset := 0 |}
      /\ transfer_buffer_length_ r' = 0).
Proof.
  intros Havail.
  destruct env as [al ini op fh [gerr gurl] st].
  unfold staging_available in Havail. open_world w.
  cbn [allocate_succeeds init_answer open_answer fetch_headers_answer
       get_url_answer set_timeout_answer fst snd] in *.
  assert (Hready :
    match transfer_buffer_0 with Some _ => True | None => al = true end).
  { destruct transfer_buffer_0; [exact I|]. destruct Havail as [H|H]; [now elim H | exact H]. }
  clear Havail.
  destruct (String.eqb_spec uri EmptyString) as [Huri|Huri].
  { left. subst uri.
    destruct transfer_buffer_0; [|subst al]; destruct client_0; step_start;
      repeat split. }
  right.
  pose proof (proj2 (String.eqb_neq uri EmptyString) Huri) as Hneq.
  destruct ini as [h|].
  2:{ left.
      destruct transfer_buffer_0; [|subst al]; destruct client_0; step_start;
        rewrite ?Z.eqb_refl; cbn [negb]; rewrite Hneq; step_start;
        rewrite ?Z.eqb_refl; cbn [negb]; step_start; repeat split; auto. }
  right.
  destruct (Z.eqb_spec op ESP_OK) as [Hop|Hop].
  2:{ left. pose proof (proj2 (Z.eqb_neq op ESP_OK) Hop) as Hopb.
      destruct transfer_buffer_0; [|subst al]; destruct client_0; step_start;
        rewrite ?Z.eqb_refl; cbn [negb]; rewrite Hneq; step_start;
        rewrite ?Z.eqb_refl; cbn [negb]; step_start;
        rewrite Hopb; cbn [negb]; step_start;
        repeat split; auto; discriminate. }
  right. subst op.
  destruct (Z.eqb_spec gerr ESP_OK) as [Hg|Hg].
  2:{ left. pose proof (proj2 (Z.eqb_neq gerr ESP_OK) Hg) as Hgb.
      destruct transfer_buffer_0; [|subst al]; destruct client_0; step_start;
        rewrite ?Z.eqb_refl; cbn [negb]; rewrite Hneq; step_start;
        rewrite ?Z.eqb_refl; cbn [negb]; step_start;
        rewrite Hgb; cbn [negb]; step_start;
        repeat split; auto; discriminate. }
  right. subst gerr.
  destruct (file_type_of_url_cases gurl)
    as [[Hw Hft]|[(Hw & Hm & Hft)|[(Hw & Hm & Hf & Hft)|(Hw & Hm & Hf & Hft)]]];
    rewrite Hft.
  4:{ left.
      destruct transfer_buffer_0; [|subst al]; destruct client_0; step_start;
        rewrite ?Z.eqb_refl; cbn [negb]; rewrite Hneq; step_start;
        rewrite ?Z.eqb_refl; cbn [negb]; step_start;
        rewrite Hw, Hm, Hf; step_start; repeat split; auto; discriminate. }
  all: right;
    (destruct (Z.eqb_spec st ESP_OK) as [Hst|Hst];
     [ right; subst st
     | left; pose proof (proj2 (Z.eqb_neq st ESP_OK) Hst) as Hstb ]);
    destruct transfer_buffer_0; try subst al; destruct client_0; step_start;
    rewrite ?Z.eqb_refl; cbn [negb]; rewrite Hneq; step_start;
        rewrite ?Z.eqb_refl; cbn [negb]; step_start;
    rewrite ?Hw, ?Hm, ?Hf; step_start;
    rewrite ?Z.eqb_refl; try rewrite Hstb; cbn [negb]; step_start;
    repeat split; auto; discriminate.
Qed.

(** X6: with the staging buffer available, [start] on a URI returns ESP_OK
    exactly when the URI is non-empty, the session is created and opened,
    the resolved URL is read back, its suffix is .wav, .mp3 or .flac, and
    the read timeout is set; the answer of the header fetch plays no part.
    On success the file type is the one of the suffix, the handle is the
    session just created, the transfer cursor is at the staging buffer with
    nothing pending, and a memory source recorded earlier stays recorded. *)
Theorem start_uri_succeeds_iff (env : StartEnv) (uri : string) (w : World) :
  staging_available env w ->
  let result := start_uri env uri w in
  let r' := reader (snd result) in
  let ft := file_type_of_url (snd (get_url_answer env)) in
  (fst (fst result) = ESP_OK <->
     uri <> EmptyString /\ init_answer env <> None
     /\ open_answer env = ESP_OK /\ fst (get_url_answer env) = ESP_OK
     /\ ft <> media_player.NONE /\ set_timeout_answer env = ESP_OK)
  /\ (fst (fst result) = ESP_OK ->
        snd (fst result) = ft
        /\ client_ r' = init_answer env
        /\ current_media_file_ r' = current_media_file_ (reader w)
        /\ transfer_buffer_current_ r'
           = Some {| base := StagingBuffer; offset := 0 |}
        /\ transfer_buffer_length_ r' = 0).
Proof.
  intros Havail result r' ft.
  destruct (start_uri_outcomes env uri w Havail)
    as [H|[H|[H|[H|[H|[H|H]]]]]];
    fold result in H; fold r' in H; fold ft in H;
    decompose [and] H; clear H;
    match goal with Hres : fst result = _ |- _ => rewrite Hres end;
    cbn [fst snd]; split;
    try (split; [intros Hok | intros Hall; decompose [and] Hall]);
    try intros Hok; try discriminate; try congruence;
    repeat split; auto; try congruence.
Qed.

Lemma start_uri_succeeds_iff_witness :
  staging_available mp3_start (new_world small_ring 64)
  /\ client_ (reader (snd (start_uri mp3_start "http://host/a.mp3"
                             (new_world small_ring 64))))
     = init_answer mp3_start.
Proof.
  assert (Havail : staging_available mp3_start (new_world small_ring 64))
    by (right; reflexivity).
  split; [exact Havail|].
  apply (proj1 (proj2 (proj2 (start_uri_succeeds_iff mp3_start
                                "http://host/a.mp3"
                                (new_world small_ring 64) Havail) eq_refl))).
Defined.

(** X7: a failed [start] on a URI leaves no session behind.  With the
    staging buffer available, whenever the call returns anything but ESP_OK
    the handle is null afterwards, and the releases made during the call
    account for every session opened during it and for the session held
    before it.  Session by session: each handle k is released during the
    call as often as it is opened during it, plus once if it was the handle
    held before; it is closed as often as released; so the session held
    before the call is closed and released at least once. *)
Theorem start_uri_failure_leaves_no_session
  (env : StartEnv) (uri : string) (w : World) :
  staging_available env w ->
  let result := start_uri env uri w in
  fst (fst result) <> ESP_OK ->
  client_ (reader (snd result)) = None
  /\ (count is_open (new_events w (snd result)) + alive (client_ (reader w))
      = count is_release (new_events w (snd result)))%nat
  /\ count is_close (new_events w (snd result))
     = count is_release (new_events w (snd result))
  /\ (forall k : positive,
        (opens (Some k) (new_events w (snd result))
         + held k (client_ (reader w))
         = releases (Some k) (new_events w (snd result)))%nat
        /\ closes (Some k) (new_events w (snd result))
           = releases (Some k) (new_events w (snd result)))
  /\ (forall k : positive,
        client_ (reader w) = Some k ->
        (1 <= closes (Some k) (new_events w (snd result)))%nat
        /\ (1 <= releases (Some k) (new_events w (snd result)))%nat).
Proof.
  intros Havail result Hfail.
  assert (Hnull : client_ (reader (snd result)) = None).
  { destruct (start_uri_outcomes env uri w Havail)
      as [H|[H|[H|[H|[H|[H|H]]]]]];
      fold result in H; decompose [and] H; clear H; auto.
    match goal with Hres : fst result = _ |- _ =>
      rewrite Hres in Hfail end. now elim Hfail. }
  assert (Hper : forall k : positive,
             (opens (Some k) (new_events w (snd result))
              + held k (client_ (reader w))
              = releases (Some k) (new_events w (snd result)))%nat
             /\ closes (Some k) (new_events w (snd result))
                = releases (Some k) (new_events w (snd result))).
  { intros k. destruct (start_uri_account k env uri w) as (ev & Hta & Hba & Hca).
    fold result in Hta, Hba.
    rewrite (new_events_extension _ _ _ Hta).
    rewrite Hnull in Hba. cbn [held] in Hba. split; [lia | exact Hca]. }
  destruct (start_uri_effects env uri w) as (evs & Ht & _ & _ & _ & Hbal & Hcl).
  fold result in Ht, Hbal.
  split; [exact Hnull|].
  rewrite (new_events_extension _ _ _ Ht) in *.
  rewrite Hnull in Hbal. cbn [alive] in Hbal.
  split; [lia|]. split; [exact Hcl|]. split; [exact Hper|].
  intros k Hk. destruct (Hper k) as [Hb Hc].
  rewrite Hk in Hb. cbn [held] in Hb. rewrite Pos.eqb_refl in Hb. lia.
Qed.

Lemma start_uri_failure_leaves_no_session_witness :
  staging_available ogg_start (streaming_world small_ring)
  /\ client_ (reader (snd (start_uri ogg_start "http://host/a.ogg"
                             (streaming_world small_ring)))) = None
  /\ (1 <= releases (Some 1%positive)
             (new_events (streaming_world small_ring)
                (snd (start_uri ogg_start "http://host/a.ogg"
                        (streaming_world small_ring)))))%nat.
Proof.
  assert (Havail : staging_available ogg_start (streaming_world small_ring))
    by (right; reflexivity).
  split; [exact Havail|].
  assert (Hfail : fst (fst (start_uri ogg_start "http://host/a.ogg"
                              (streaming_world small_ring))) <> ESP_OK)
    by (vm_compute; discriminate).
  pose proof (start_uri_failure_leaves_no_session ogg_start
                "http://host/a.ogg" (streaming_world small_ring)
                Havail Hfail) as H.
  split; [exact (proj1 H)|].
  exact (proj2 (proj2 (proj2 (proj2 (proj2 H))) 1%positive eq_refl)).
Defined.

(** X8: a failure of the last session call of [start], setting the read
    timeout, is reported with the file type already detected from the
    suffix: the call returns the error of [esp_http_client_set_timeout_ms]
    together with WAV, MP3 or FLAC, not NONE, and the session has been
    released: after the timeout call the new session is closed and cleaned
    up, these being the last two calls, and the handle is null. *)
Theorem start_uri_timeout_failure_keeps_file_type
  (env : StartEnv) (uri : string) (w : World) :
  staging_available env w ->
  uri <> EmptyString ->
  init_answer env <> None ->
  open_answer env = ESP_OK ->
  fst (get_url_answer env) = ESP_OK ->
  file_type_of_url (snd (get_url_answer env)) <> media_player.NONE ->
  set_timeout_answer env <> ESP_OK ->
  let result := start_uri env uri w in
  fst result = (set_timeout_answer env,
                file_type_of_url (snd (get_url_answer env)))
  /\ client_ (reader (snd result)) = None
  /\ new_events w (snd result)
     = allocation_events (reader w) ++ teardown_events (client_ (reader w))
       ++ [EvHttpInit (client_config_for uri);
           EvHttpOpen (init_answer env);
           EvHttpFetchHeaders (init_answer env);
           EvHttpGetUrl (init_answer env);
           EvHttpSetTimeout (init_answer env) 10;
           EvHttpClose (init_answer env);
           EvHttpCleanup (init_answer env)]
  /\ (1 <= closes (init_answer env) (new_events w (snd result)))%nat
  /\ (1 <= releases (init_answer env) (new_events w (snd result)))%nat.
Proof.
  intros Havail Huri Hinit Hopen Hget Hft Hst result.
  assert (Hres : fst result = (set_timeout_answer env,
                               file_type_of_url (snd (get_url_answer env)))
                 /\ client_ (reader (snd result)) = None).
  { destruct (start_uri_outcomes env uri w Havail)
      as [H|[H|[H|[H|[H|[H|H]]]]]];
      fold result in H; decompose [and] H; clear H;
      try congruence; auto. }
  destruct Hres as [Hres Hnull].
  split; [exact Hres|]. split; [exact Hnull|].
  assert (Hev : new_events w (snd result)
     = allocation_events (reader w) ++ teardown_events (client_ (reader w))
       ++ [EvHttpInit (client_config_for uri);
           EvHttpOpen (init_answer env);
           EvHttpFetchHeaders (init_answer env);
           EvHttpGetUrl (init_answer env);
           EvHttpSetTimeout (init_answer env) 10;
           EvHttpClose (init_answer env);
           EvHttpCleanup (init_answer env)]).
  { subst result. clear Hres Hnull.
    destruct env as [al ini op fh [gerr gurl] st].
    unfold staging_available, allocation_events, teardown_events in *.
    open_world w.
    cbn [allocate_succeeds init_answer open_answer fetch_headers_answer
         get_url_answer set_timeout_answer fst snd] in *.
    destruct ini as [h|]; [|now elim Hinit]. subst op gerr.
    pose proof (proj2 (String.eqb_neq uri EmptyString) Huri) as Hneq.
    pose proof (proj2 (Z.eqb_neq st ESP_OK) Hst) as Hstb.
    destruct (file_type_of_url_cases gurl)
      as [[Hw Hty]|[(Hw & Hm & Hty)|[(Hw & Hm & Hf & Hty)
                                    |(Hw & Hm & Hf & Hty)]]];
      [| | |congruence];
      (destruct transfer_buffer_0 as [buf|];
       [|destruct Havail as [Habs|Hal]; [now elim Habs|subst al]]);
      destruct client_0 as [j|]; step_start;
      rewrite ?Z.eqb_refl; cbn [negb]; rewrite Hneq; step_start;
      rewrite ?Z.eqb_refl; cbn [negb]; step_start;
      rewrite ?Hw, ?Hm, ?Hf; step_start;
      rewrite Hstb; cbn [negb]; step_start;
      rewrite <- ?app_assoc;
      match goal with
      | |- context [new_events ?a ?b] =>
          rewrite (new_events_extension a b _ eq_refl)
      end; reflexivity. }
  split; [exact Hev|].
  rewrite Hev, !closes_app, !releases_app.
  destruct (init_answer env) as [h|]; [|now elim Hinit].
  cbn [closes releases handle_eqb]. rewrite Pos.eqb_refl. lia.
Qed.

Lemma start_uri_timeout_failure_keeps_file_type_witness :
  set_timeout_answer timeout_failed_start <> ESP_OK
  /\ fst (start_uri timeout_failed_start "http://host/a.flac"
            (new_world small_ring 64))
     = (ESP_FAIL, media_player.FLAC)
  /\ (1 <= releases (init_answer timeout_failed_start)
             (new_events (new_world small_ring 64)
                (snd (start_uri timeout_failed_start "http://host/a.flac"
                        (new_world small_ring 64)))))%nat.
Proof.
  assert (Hst : set_timeout_answer timeout_failed_start <> ESP_OK)
    by discriminate.
  split; [exact Hst|].
  assert (Huri : "http://host/a.flac"%string <> EmptyString) by discriminate.
  assert (Hinit : init_answer timeout_failed_start <> None) by discriminate.
  assert (Hft : file_type_of_url (snd (get_url_answer timeout_failed_start))
                <> media_player.NONE) by (vm_compute; discriminate).
  pose proof (start_uri_timeout_failure_keeps_file_type timeout_failed_start
                "http://host/a.flac" (new_world small_ring 64)
                (or_intror eq_refl) Huri Hinit eq_refl eq_refl Hft Hst) as H.
  cbv zeta in H.
  split; [exact (proj1 H)|].
  exact (proj2 (proj2 (proj2 (proj2 H)))).
Defined.

(** ** The data path of a network step *)

Lemma firstn_deposit (bytes old : list byte) :
  firstn (List.length bytes) (deposit bytes old) = bytes.
Proof.
  unfold deposit. rewrite firstn_app, Nat.sub_diag, firstn_all.
  cbn [firstn]. now rewrite app_nil_r.
Qed.

(** X9: a network step that receives bytes forwards a prefix of them and
    keeps nothing back.  When the session delivers [received] > 0 bytes, the
    step returns READING and stores into the consumer buffer exactly the
    first min(received, room) of them, where room is the free space of the
    consumer buffer once the write has waited; the bytes beyond that are
    dropped: the reader records no pending length and no cursor for them. *)
Theorem http_read_forwards_received_prefix
  (env : StepEnv) (w : World) (h : positive) (buf : list byte) :
  client_ (reader w) = Some h ->
  transfer_buffer_ (reader w) = Some buf ->
  is_complete_answer env = false ->
  0 < read_answer env ->
  Z.of_nat (List.length (read_bytes env)) = read_answer env ->
  let w' := snd (read env w) in
  let waited :=
    RingBuffer.consume (consumed_while_waiting env)
      (RingBuffer.consume (consumed_before env) (ring w)) in
  let stored :=
    firstn (Z.to_nat (Z.min (read_answer env) (RingBuffer.free waited)))
      (read_bytes env) in
  fst (read env w) = READING
  /\ forwarded (new_events w w') = stored
  /\ RingBuffer.unread (ring w') = RingBuffer.unread waited ++ stored
  /\ transfer_buffer_length_ (reader w') = transfer_buffer_length_ (reader w)
  /\ transfer_buffer_current_ (reader w')
     = transfer_buffer_current_ (reader w).
Proof.
  intros Hc Hbuf Hcomplete Hpos Hlen w' waited stored.
  subst w' stored waited.
  destruct env as [before complete received bytes waiting].
  cbn [consumed_before is_complete_answer read_answer read_bytes
       consumed_while_waiting] in *. subst received complete.
  assert (Hge : (Z.of_nat (List.length bytes) <? 0) = false)
    by (apply Z.ltb_ge; lia).
  assert (Hgt : (0 <? Z.of_nat (List.length bytes)) = true)
    by (apply Z.ltb_lt; lia).
  open_world w. subst. step_reader.
  cbn [consumed_before is_complete_answer read_answer read_bytes
       consumed_while_waiting] in *.
  step_reader. rewrite Hge, Hgt. step_reader.
  cbn [option_map]. change (Z.to_nat 0) with 0%nat. cbn [skipn].
  rewrite Nat2Z.id, firstn_deposit.
  unfold RingBuffer.accepted. rewrite Nat2Z.id, firstn_length_firstn.
  match goal with
  | |- context [size_t_wrap (int_wrap ?a) <? size_t_wrap ?b] =>
      destruct (size_t_wrap (int_wrap a) <? size_t_wrap b)
  end; step_reader; rewrite <- ?app_assoc; cbn [app];
    match goal with
    | |- context [new_events ?a ?b] =>
        rewrite (new_events_extension a b _ eq_refl)
    end; cbn [forwarded]; rewrite ?app_nil_r; repeat split.
Qed.

Lemma http_read_forwards_received_prefix_witness :
  0 < read_answer burst_step
  /\ forwarded (new_events (streaming_world small_ring)
                  (snd (read burst_step (streaming_world small_ring))))
     = [Byte.x61; Byte.x62; Byte.x63; Byte.x64].
Proof.
  split; [reflexivity|].
  apply (proj1 (proj2 (http_read_forwards_received_prefix burst_step
                         (streaming_world small_ring) 1%positive
                         (repeat Byte.x00 64)
                         eq_refl eq_refl eq_refl eq_refl eq_refl))).
Defined.

(** ** The memory path, byte counts *)


(** X10: a step of the memory path stores exactly what fits.  With bytes
    left, the step returns READING — also when nothing fits — and stores the
    next n bytes of the view, n = min(bytes left, room of the consumer buffer
    once the write has waited), taken as 0 when the buffer is over-full; the
    cursor moves by n and that is the only boundary call of the step. *)
Theorem file_read_stores_what_fits
  (env : StepEnv) (f : media_player.MediaFile) (k : nat) (w : World) :
  media_player.well_formed f ->
  streaming_file f k w ->
  (k < List.length (media_player.data f))%nat ->
  let waited := RingBuffer.consume (consumed_while_waiting env) (ring w) in
  let n := Z.to_nat (Z.min (media_player.length f - Z.of_nat k)
                       (RingBuffer.free waited)) in
  let stored := firstn n (skipn k (media_player.data f)) in
  let w' := snd (read env w) in
  fst (read env w) = READING
  /\ streaming_file f (k + n) w'
  /\ List.length stored = n
  /\ new_events w w' = [EvRingWrite READ_WRITE_TIMEOUT_MS stored]
  /\ ring w' = {| RingBuffer.capacity := RingBuffer.capacity (ring w);
                  RingBuffer.unread := RingBuffer.unread waited ++ stored |}.
Proof. exact (file_read_step_exact env f k w). Qed.

Lemma file_read_stores_what_fits_witness :
  media_player.well_formed chime
  /\ new_events chime_world (snd (read idle_step chime_world))
     = [EvRingWrite READ_WRITE_TIMEOUT_MS
          [Byte.x52; Byte.x49; Byte.x46; Byte.x46]].
Proof.
  assert (Hwf : media_player.well_formed chime) by (split; reflexivity).
  split; [exact Hwf|].
  assert (Hs : streaming_file chime 0 chime_world).
  { repeat split. cbn. lia. }
  assert (Hlt : (0 < List.length (media_player.data chime))%nat)
    by (cbn; lia).
  apply (proj1 (proj2 (proj2 (proj2 (file_read_stores_what_fits idle_step
                                       chime 0%nat chime_world Hwf Hs Hlt))))).
Defined.

Lemma streaming_file_position (f : media_player.MediaFile) (k1 k2 : nat)
  (w : World) :
  streaming_file f k1 w -> streaming_file f k2 w -> k1 = k2.
Proof.
  intros (_ & _ & H1 & _) (_ & _ & H2 & _). rewrite H1 in H2.
  inversion H2. lia.
Qed.

(** With a consumer that empties the buffer during every write, each step
    stores a full buffer, or what is left of the view. *)
Lemma run_with_draining_consumer (f : media_player.MediaFile) (c : nat) :
  media_player.well_formed f ->
  forall (envs : list StepEnv) (k : nat) (w : World),
    streaming_file f k w ->
    RingBuffer.capacity (ring w) = Z.of_nat c ->
    (List.length (RingBuffer.unread (ring w)) <= c)%nat ->
    Forall (fun e => (c <= consumed_while_waiting e)%nat) envs ->
    streaming_file f
      (Nat.min (List.length (media_player.data f))
         (k + List.length envs * c)) (run envs w)
    /\ RingBuffer.capacity (ring (run envs w)) = Z.of_nat c
    /\ (List.length (RingBuffer.unread (ring (run envs w))) <= c)%nat.
Proof.
  intros Hwf. induction envs as [|env rest IH]; intros k w Hs Hcap Hfill Hall;
    cbn [run List.length].
  - assert (Hk : (k <= List.length (media_player.data f))%nat) by apply Hs.
    replace (Nat.min _ _) with k by lia. auto.
  - assert (Hk : (k <= List.length (media_player.data f))%nat) by apply Hs.
    inversion Hall as [|e es Henv Hrest]; subst.
    destruct (Nat.eq_dec k (List.length (media_player.data f))) as [->|Hne].
    + rewrite (file_read_done env f w Hwf Hs). cbn [snd].
      pose proof (IH _ _ Hs Hcap Hfill Hrest) as Hs'.
      replace (Nat.min (List.length (media_player.data f))
                 (List.length (media_player.data f)
                  + S (List.length rest) * c))
        with (Nat.min (List.length (media_player.data f))
                (List.length (media_player.data f) + List.length rest * c))
        by lia.
      exact Hs'.
    + destruct (file_read_step_exact env f k w Hwf Hs ltac:(lia))
        as (_ & Hs' & Hlen & _ & Hring).
      cbv zeta in Hs', Hlen, Hring.
      assert (Hempty : RingBuffer.unread
                         (RingBuffer.consume (consumed_while_waiting env)
                            (ring w)) = []).
      { cbn [RingBuffer.consume RingBuffer.unread]. apply skipn_all2. lia. }
      assert (Hfree : RingBuffer.free
                        (RingBuffer.consume (consumed_while_waiting env)
                           (ring w)) = Z.of_nat c).
      { unfold RingBuffer.free. rewrite Hempty.
        cbn [RingBuffer.consume RingBuffer.capacity List.length]. lia. }
      rewrite Hfree in Hs', Hlen, Hring. rewrite Hempty in Hring.
      destruct Hwf as [HL HR].
      set (n := Z.to_nat (Z.min (media_player.length f - Z.of_nat k)
                            (Z.of_nat c))) in *.
      assert (Hn : n = Nat.min (List.length (media_player.data f) - k) c)
        by (unfold n; lia).
      clearbody n.
      assert (Hcap' : RingBuffer.capacity (ring (snd (read env w)))
                      = Z.of_nat c) by (rewrite Hring; exact Hcap).
      assert (Hfill' : (List.length
                          (RingBuffer.unread (ring (snd (read env w))))
                        <= c)%nat).
      { rewrite Hring. cbn [RingBuffer.unread]. rewrite app_nil_l, Hlen. lia. }
      pose proof (IH _ _ Hs' Hcap' Hfill' Hrest) as Hs''.
      replace (Nat.min (List.length (media_player.data f))
                 (k + S (List.length rest) * c))
        with (Nat.min (List.length (media_player.data f))
                (k + n + List.length rest * c)) by lia.
      exact Hs''.
Qed.

(** X11: the number of polls of a memory source.  With a consumer that
    empties a buffer of capacity c during every write, m steps after a
    [start] on a view of L bytes have stored its first min(L, m*c) bytes, and
    the next step returns FINISHED exactly when m*c >= L: the view takes
    ceil(L/c) READING steps.  The bytes are in the consumer buffer: while
    m*c < L, the buffer holds after the next step exactly the bytes of the
    view from m*c on, up to c of them. *)
Theorem file_read_poll_count
  (envs : list StepEnv) (env : StepEnv) (f : media_player.MediaFile)
  (c : nat) (w : World) :
  media_player.well_formed f ->
  streaming_file f 0 w ->
  RingBuffer.capacity (ring w) = Z.of_nat c ->
  (List.length (RingBuffer.unread (ring w)) <= c)%nat ->
  Forall (fun e => (c <= consumed_while_waiting e)%nat) envs ->
  forwarded (new_events w (run envs w))
  = firstn (List.length envs * c) (media_player.data f)
  /\ (fst (read env (run envs w)) = FINISHED <->
      (List.length (media_player.data f) <= List.length envs * c)%nat)
  /\ ((List.length envs * c < List.length (media_player.data f))%nat ->
      (c <= consumed_while_waiting env)%nat ->
      ring (snd (read env (run envs w)))
      = {| RingBuffer.capacity := Z.of_nat c;
           RingBuffer.unread :=
             firstn c (skipn (List.length envs * c) (media_player.data f)) |}
      /\ forwarded (new_events w (snd (read env (run envs w))))
         = firstn (S (List.length envs) * c) (media_player.data f)).
Proof.
  intros Hwf Hs Hcap Hfill Hall.
  destruct (run_with_draining_consumer f c Hwf envs 0%nat w Hs Hcap Hfill Hall)
    as (Hpos & Hcap' & Hfill'). cbn [Nat.add] in Hpos.
  destruct (run_streaming_file envs f Hwf 0%nat w Hs)
    as (k & evs & _ & Hs' & Htr & Hfw).
  pose proof (streaming_file_position f _ _ _ Hs' Hpos) as Hk.
  cbn [firstn app] in Hfw.
  assert (Hstored : forwarded (new_events w (run envs w))
                    = firstn (List.length envs * c) (media_player.data f)).
  { rewrite (new_events_extension _ _ _ Htr), Hfw, Hk.
    destruct (Nat.le_ge_cases (List.length (media_player.data f))
                (List.length envs * c)) as [Hle|Hge].
    + rewrite Nat.min_l by lia. now rewrite !firstn_all2 by lia.
    + now rewrite Nat.min_r by lia. }
  split; [exact Hstored|]. split.
  - split.
    + intros Hfin.
      pose proof (file_read_finished_inv env f _ _ Hwf Hpos Hfin). lia.
    + intros Hle. rewrite Nat.min_l in Hpos by lia.
      now rewrite (file_read_done env f _ Hwf Hpos).
  - intros Hmore Henv.
    assert (Hreading : fst (read env (run envs w)) = READING).
    { rewrite Nat.min_r in Hpos by lia.
      now destruct (file_read_step_exact env f _ _ Hwf Hpos Hmore). }
    destruct (reading_step_after_run f w envs env Hwf Hs Hreading)
      as (_ & _ & Hring & Hfwd).
    cbv zeta in Hring, Hfwd.
    assert (Hlen : List.length (forwarded (new_events w (run envs w)))
                   = (List.length envs * c)%nat).
    { rewrite Hstored, length_firstn. lia. }
    rewrite Hlen in Hring, Hfwd.
    assert (Hempty : RingBuffer.unread
                       (RingBuffer.consume (consumed_while_waiting env)
                          (ring (run envs w))) = []).
    { cbn [RingBuffer.consume RingBuffer.unread]. apply skipn_all2. lia. }
    assert (Hfree : RingBuffer.free
                      (RingBuffer.consume (consumed_while_waiting env)
                         (ring (run envs w))) = Z.of_nat c).
    { unfold RingBuffer.free. rewrite Hempty.
      cbn [RingBuffer.consume RingBuffer.capacity List.length]. lia. }
    rewrite Hfree in Hring, Hfwd. rewrite Hempty, Hcap' in Hring.
    destruct Hwf as [HL HR].
    set (rest := skipn (List.length envs * c) (media_player.data f)) in *.
    assert (Hrest : List.length rest
                    = (List.length (media_player.data f)
                       - List.length envs * c)%nat)
      by (unfold rest; apply length_skipn).
    assert (Hn : Z.to_nat
                   (Z.min (media_player.length f
                           - Z.of_nat (List.length envs * c)) (Z.of_nat c))
                 = Nat.min c (List.length rest)) by lia.
    rewrite Hn in Hring, Hfwd.
    split.
    + rewrite Hring. cbn [app]. f_equal.
      rewrite <- (length_firstn c rest). apply firstn_length_firstn.
    + rewrite Hfwd.
      destruct (Nat.le_ge_cases c (List.length rest)) as [Hle|Hge].
      * rewrite Nat.min_l by lia. f_equal. lia.
      * rewrite Nat.min_r by lia. rewrite !firstn_all2 by lia. reflexivity.
Qed.

Lemma file_read_poll_count_witness :
  streaming_file chime 0 chime_world
  /\ forwarded (new_events chime_world (run [draining_step] chime_world))
     = [Byte.x52; Byte.x49; Byte.x46; Byte.x46]
  /\ ring (snd (read draining_step (run [draining_step] chime_world)))
     = {| RingBuffer.capacity := 4; RingBuffer.unread := [Byte.x00] |}.
Proof.
  assert (Hwf : media_player.well_formed chime) by (split; reflexivity).
  assert (Hs : streaming_file chime 0 chime_world).
  { repeat split. cbn. lia. }
  split; [exact Hs|].
  assert (Hfill : (List.length (RingBuffer.unread (ring chime_world)) <= 4)%nat)
    by (cbn; lia).
  assert (Hall : Forall (fun e => (4 <= consumed_while_waiting e)%nat)
                   [draining_step]).
  { constructor; [cbn; lia | constructor]. }
  pose proof (file_read_poll_count [draining_step] draining_step chime 4%nat
                chime_world Hwf Hs eq_refl Hfill Hall) as H.
  split; [exact (proj1 H)|].
  assert (Hmore : (List.length [draining_step] * 4
                   < List.length (media_player.data chime))%nat)
    by (cbn; lia).
  assert (Henv : (4 <= consumed_while_waiting draining_step)%nat)
    by (cbn; lia).
  exact (proj1 (proj2 (proj2 H) Hmore Henv)).
Defined.

(** ** Starting again *)

Lemma start_file_ok (env : StartEnv) (f : media_player.MediaFile) (w : World) :
  staging_available env w ->
  fst (start_file env f w) = (ESP_OK, media_player.file_type f)
  /\ client_ (reader (snd (start_file env f w))) = client_ (reader w)
  /\ ring (snd (start_file env f w)) = ring w.
Proof.
  unfold staging_available. intros Havail. open_world w.
  destruct transfer_buffer_0 as [buf|]; step_reader.
  - rewrite Z.eqb_refl. cbn [negb]. step_reader. repeat split.
  - destruct Havail as [H|H]; [now elim H|]. rewrite H. step_reader.
    rewrite Z.eqb_refl. cbn [negb]. step_reader. repeat split.
Qed.

(** X12: after any terminal step a reader can be started again on a memory
    source.  With the staging buffer available the new [start] succeeds with
    the declared file type and begins a fresh transfer: whenever a later step
    returns FINISHED, the bytes stored since that [start] are exactly the new
    view, whatever was transferred before.  The bytes reach the consumer
    buffer: every later step that returns READING appends to what the
    consumer left in the buffer the next n bytes of the new view,
    n = min(bytes left, room), starting at byte k, where k is the number of
    bytes stored since that [start]. *)
Theorem restart_on_memory_source_after_terminal
  (env : StepEnv) (w : World) (senv : StartEnv) (f : media_player.MediaFile) :
  fst (read env w) <> READING ->
  media_player.well_formed f ->
  staging_available senv (snd (read env w)) ->
  let started := start_file senv f (snd (read env w)) in
  let w1 := snd started in
  fst started = (ESP_OK, media_player.file_type f)
  /\ (forall envs env',
        fst (read env' (run envs w1)) = FINISHED ->
        forwarded (new_events w1 (run envs w1)) = media_player.data f)
  /\ ring w1 = ring (snd (read env w))
  /\ (forall envs env',
        fst (read env' (run envs w1)) = READING ->
        let w2 := run envs w1 in
        let k := List.length (forwarded (new_events w1 w2)) in
        let waited :=
          RingBuffer.consume (consumed_while_waiting env') (ring w2) in
        let n := Z.to_nat (Z.min (media_player.length f - Z.of_nat k)
                             (RingBuffer.free waited)) in
        (k < List.length (media_player.data f))%nat
        /\ forwarded (new_events w1 w2) = firstn k (media_player.data f)
        /\ ring (snd (read env' w2))
           = {| RingBuffer.capacity := RingBuffer.capacity (ring w2);
                RingBuffer.unread :=
                  RingBuffer.unread waited
                  ++ firstn n (skipn k (media_player.data f)) |}
        /\ forwarded (new_events w1 (snd (read env' w2)))
           = firstn (k + n) (media_player.data f)).
Proof.
  intros Hterm Hwf Havail started w1.
  destruct (terminal_step_without_session_after env w Hterm) as [Hnull _].
  destruct (start_file_ok senv f _ Havail) as (Hok & _ & Hsame).
  fold started in Hok, Hsame. fold w1 in Hsame.
  split; [exact Hok|].
  assert (Hs : streaming_file f 0 w1).
  { apply (start_file_success senv f (snd (read env w)) w1
             (media_player.file_type f) Hnull).
    subst w1. rewrite <- Hok. subst started. apply surjective_pairing. }
  split; [|split; [exact Hsame|]].
  - intros envs env' Hfin.
    destruct (run_streaming_file envs f Hwf 0%nat w1 Hs)
      as (k & evs & _ & Hs' & Htr & Hfw).
    pose proof (file_read_finished_inv env' f k _ Hwf Hs' Hfin) as ->.
    rewrite (new_events_extension _ _ _ Htr).
    cbn [firstn app] in Hfw. now rewrite Hfw, firstn_all.
  - intros envs env' Hreading.
    exact (reading_step_after_run f w1 envs env' Hwf Hs Hreading).
Qed.

Lemma restart_on_memory_source_after_terminal_witness :
  fst (read failing_step (streaming_world small_ring)) = FAILED
  /\ fst (start_file mp3_start chime
            (snd (read failing_step (streaming_world small_ring))))
     = (ESP_OK, media_player.WAV)
  /\ ring (snd (read idle_step
                  (snd (start_file mp3_start chime
                          (snd (read failing_step
                                  (streaming_world small_ring)))))))
     = {| RingBuffer.capacity := 4;
          RingBuffer.unread := [Byte.x52; Byte.x49; Byte.x46; Byte.x46] |}.
Proof.
  split; [reflexivity|].
  assert (Hterm : fst (read failing_step (streaming_world small_ring))
                  <> READING) by (vm_compute; discriminate).
  assert (Hwf : media_player.well_formed chime) by (split; reflexivity).
  pose proof (restart_on_memory_source_after_terminal failing_step
                (streaming_world small_ring) mp3_start chime
                Hterm Hwf (or_intror eq_refl)) as H.
  cbv zeta in H.
  split; [exact (proj1 H)|].
  assert (Hreading :
            fst (read idle_step
                   (run [] (snd (start_file mp3_start chime
                                   (snd (read failing_step
                                           (streaming_world small_ring)))))))
            = READING) by (vm_compute; reflexivity).
  pose proof (proj1 (proj2 (proj2 (proj2 (proj2 (proj2 H)) [] idle_step
                                      Hreading)))) as Hring.
  vm_compute in Hring. vm_compute. exact Hring.
Defined.

Lemma start_uri_ok_needs_staging (env : StartEnv) (uri : string) (w : World) :
  fst (fst (start_uri env uri w)) = ESP_OK -> staging_available env w.
Proof.
  unfold staging_available. open_world w.
  destruct transfer_buffer_0 as [buf|]; [left; discriminate|].
  destruct (allocate_succeeds env) eqn:Halloc; [right; reflexivity|].
  step_reader. rewrite Halloc. step_reader. discriminate.
Qed.

(** What a successful [start] on a URI leaves in the reader. *)
Lemma start_uri_success_state (env : StartEnv) (uri : string) (w : World) :
  fst (fst (start_uri env uri w)) = ESP_OK ->
  exists h : positive,
    client_ (reader (snd (start_uri env uri w))) = Some h
    /\ current_media_file_ (reader (snd (start_uri env uri w)))
       = current_media_file_ (reader w)
    /\ transfer_buffer_length_ (reader (snd (start_uri env uri w))) = 0.
Proof.
  intros Hok.
  pose proof (start_uri_ok_needs_staging env uri w Hok) as Havail.
  destruct (start_uri_outcomes env uri w Havail)
    as [H|[H|[H|[H|[H|[H|H]]]]]].
  7:{ destruct H as (_ & Hini & _ & _ & _ & _ & _ & Hcl & Hmed & _ & Hlen).
      destruct (init_answer env) as [h|]; [|now elim Hini].
      exists h. auto. }
  all: decompose [and] H; clear H;
    match goal with Hres : fst (start_uri _ _ _) = _ |- _ =>
      rewrite Hres in Hok end; cbn [fst] in Hok;
    first [discriminate | congruence].
Qed.

Lemma file_read_nothing_left (env : StepEnv) (w : World)
  (f : media_player.MediaFile) :
  client_ (reader w) = None ->
  current_media_file_ (reader w) = Some f ->
  transfer_buffer_length_ (reader w) = 0 ->
  read env w = (FINISHED, w).
Proof.
  intros Hc Hm Hl. open_world w. subst. reflexivity.
Qed.

(** X13: [start] on a URI does not forget a memory source recorded by an
    earlier [start], and that changes what follows a network error.  On such
    a reader, when the session read fails the step returns FAILED, and every
    later step returns FINISHED and changes nothing: the stepper falls back
    to the memory path, which has nothing pending. *)
Theorem network_failure_then_finished
  (senv : StartEnv) (uri : string) (w : World) (f : media_player.MediaFile)
  (env : StepEnv) :
  current_media_file_ (reader w) = Some f ->
  fst (fst (start_uri senv uri w)) = ESP_OK ->
  is_complete_answer env = false ->
  read_answer env < 0 ->
  let w1 := snd (start_uri senv uri w) in
  let w2 := snd (read env w1) in
  fst (read env w1) = FAILED
  /\ forall envs env', read env' (run envs w2) = (FINISHED, w2).
Proof.
  intros Hm Hok Hcomplete Hneg w1 w2.
  destruct (start_uri_success_state senv uri w Hok)
    as (h & Hcl & Hmed & Hlen).
  fold w1 in Hcl, Hmed, Hlen.
  assert (Hstep := http_read_error env w1 h Hcl Hcomplete Hneg).
  subst w2. rewrite Hstep. cbn [fst snd]. split; [reflexivity|].
  match goal with
  | |- forall envs env', read env' (run envs ?w2) = _ =>
      assert (Hfix : forall e, read e w2 = (FINISHED, w2))
  end.
  { intros e. apply (file_read_nothing_left e _ f); cbn; congruence. }
  intros envs env'. now rewrite (run_fixed FINISHED _ Hfix envs).
Qed.

Lemma network_failure_then_finished_witness :
  current_media_file_ (reader chime_world) = Some chime
  /\ fst (read failing_step
            (snd (start_uri mp3_start "http://host/a.mp3" chime_world)))
     = FAILED.
Proof.
  split; [reflexivity|].
  apply (proj1 (network_failure_then_finished mp3_start "http://host/a.mp3"
                  chime_world chime failing_step
                  eq_refl eq_refl eq_refl eq_refl)).
Defined.

(** ** An idle poll *)

(** X14: a session read that times out with nothing (result 0) is no error.
    The step returns READING, keeps the session, stores nothing into the
    consumer buffer, and always takes the pacing delay, for every staging
    capacity between 1 byte and a third of the 32-bit range. *)
Theorem http_read_idle_poll (env : StepEnv) (w : World) (h : positive) :
  client_ (reader w) = Some h ->
  is_complete_answer env = false ->
  read_answer env = 0 ->
  0 < transfer_buffer_size_ (reader w) ->
  transfer_buffer_size_ (reader w) * 3 < 2 ^ 32 ->
  let w' := snd (read env w) in
  fst (read env w) = READING
  /\ client_ (reader w') = Some h
  /\ new_events w w'
     = [EvHttpIsComplete (Some h); EvRingFree;
        EvHttpRead (Some h) (read_quota env w); EvDelay 20]
  /\ ring w' = RingBuffer.consume (consumed_before env) (ring w).
Proof.
  intros Hc Hcomplete Hzero Hpos Hfit w'. subst w'.
  assert (Hpaced : (size_t_wrap (int_wrap (0 * 4))
                    <? size_t_wrap (transfer_buffer_size_ (reader w) * 3))
                   = true).
  { unfold size_t_wrap. rewrite (Z.mod_small (_ * 3)) by lia.
    change (int_wrap (0 * 4) mod 2 ^ 32) with 0. apply Z.ltb_lt. lia. }
  open_world w. subst. unfold read_quota. step_reader.
  rewrite Hcomplete. step_reader. rewrite Hzero. cbn [Z.ltb Z.compare].
  step_reader. rewrite Hpaced. step_reader.
  rewrite <- !app_assoc, quota_is_min. cbn [app].
  match goal with
  | |- context [new_events ?a ?b] =>
      rewrite (new_events_extension a b _ eq_refl)
  end. repeat split.
Qed.

Lemma http_read_idle_poll_witness :
  read_answer idle_step = 0
  /\ fst (read idle_step (streaming_world full_ring)) = READING.
Proof.
  split; [reflexivity|].
  assert (Hpos : 0 < transfer_buffer_size_
                       (reader (streaming_world full_ring)))
    by (change (0 < 64); lia).
  assert (Hfit : transfer_buffer_size_ (reader (streaming_world full_ring)) * 3
                 < 2 ^ 32) by (change (64 * 3 < 2 ^ 32); lia).
  apply (proj1 (http_read_idle_poll idle_step (streaming_world full_ring)
                  1%positive eq_refl eq_refl eq_refl Hpos Hfit)).
Defined.
